(** * TeleGPT: chat session history, streaming throttle, Markdown
    conversion and progress indicator.

    Shallow embedding of
    - [src/modules/chat/session.rs]      (HistoryMessagePool, Session)
    - [src/utils/stream_ext.rs]          (ThrottleBuffer::poll_next)
    - [src/modules/chat/markdown.rs]     (ParseState, parse)
    - [src/modules/chat/braille.rs]      (BrailleProgress)
    - [src/modules/chat/mod.rs]          (stream_model_result and the
                                          error path of
                                          actually_handle_chat_message)

    Rust integer types are modelled as [Z] or [N] with their wrap-around
    ([overflowing_add]) written out; arithmetic that panics on overflow in
    a debug build is modelled as a checked operation returning [None]. *)

From Stdlib Require Import ZArith Lia.
From stdpp Require Import base gmap list list_relations strings option.

Open Scope Z_scope.

(* ================================================================== *)
(** * Rust integer helpers *)
(* ================================================================== *)

(** [i64::overflowing_add] keeps the low 64 bits, read as two's complement. *)
Definition wrap_i64 (z : Z) : Z := ((z + 2 ^ 63) mod 2 ^ 64) - 2 ^ 63.

(* ================================================================== *)
(** * session.rs *)
(* ================================================================== *)

Module Session.

(** [async_openai::types::Role] *)
Inductive Role := User | Assistant | System.

Definition is_system (r : Role) : bool :=
  match r with System => true | _ => false end.

(** [ChatCompletionRequestMessage]: a role and a content. *)
Record Message := mkMessage { role : Role; content : string }.

(** [HistoryMessage { id: i64, message: Message }] *)
Record HistoryMessage := mkHistoryMessage { id : Z; message : Message }.

(** [HistoryMessagePool { current_id, messages: HashMap<i64, _>,
    deque: VecDeque<i64> }] *)
Record HistoryMessagePool := mkPool {
  current_id : Z;
  messages : gmap Z HistoryMessage;
  deque : list Z
}.

Definition pool_default : HistoryMessagePool := mkPool 0 ∅ [].

(** [fn prepare_message(&mut self, message) -> HistoryMessage] *)
Definition prepare_message (p : HistoryMessagePool) (m : Message)
  : HistoryMessage * HistoryMessagePool :=
  let nid := wrap_i64 (current_id p + 1) in
  (mkHistoryMessage nid m, mkPool nid (messages p) (deque p)).

(** [fn push_message]: insert into the map, push to the back of the deque. *)
Definition push_message (p : HistoryMessagePool) (hm : HistoryMessage)
  : HistoryMessagePool :=
  mkPool (current_id p) (<[id hm := hm]> (messages p)) (deque p ++ [id hm]).

(** [fn pop_message]: pop the front id and remove it from the map. *)
Definition pop_message (p : HistoryMessagePool) : HistoryMessagePool :=
  match deque p with
  | [] => p
  | evicted_id :: rest => mkPool (current_id p) (delete evicted_id (messages p)) rest
  end.

(** [fn clear] *)
Definition pool_clear (p : HistoryMessagePool) : HistoryMessagePool :=
  mkPool (current_id p) ∅ [].

(** [fn len]: the length of the deque. *)
Definition pool_len (p : HistoryMessagePool) : nat := length (deque p).

(** [fn get_message] *)
Definition get_message (p : HistoryMessagePool) (i : Z) : option HistoryMessage :=
  messages p !! i.

(** [fn iter]: the deque's ids, looked up in the map, missing ones skipped. *)
Definition pool_iter (p : HistoryMessagePool) : list HistoryMessage :=
  omap (fun i => messages p !! i) (deque p).

(** [struct Session]; [config.conversation_limit] is a [u64]. *)
Record Session := mkSession {
  system_message : option Message;
  history_messages : HistoryMessagePool;
  pending_message : option Message;
  conversation_limit : N
}.

(** [Session::new] *)
Definition new_session (limit : N) : Session := mkSession None pool_default None limit.

(** [fn reset] *)
Definition reset (s : Session) : Session :=
  mkSession None (pool_clear (history_messages s)) None (conversation_limit s).

(** [fn prepare_history_message] *)
Definition prepare_history_message (s : Session) (m : Message)
  : HistoryMessage * Session :=
  let '(hm, p) := prepare_message (history_messages s) m in
  (hm, mkSession (system_message s) p (pending_message s) (conversation_limit s)).

(** [fn add_history_message] *)
Definition add_history_message (s : Session) (hm : HistoryMessage) : Session :=
  if is_system (role (message hm)) then
    mkSession (Some (message hm)) (history_messages s) (pending_message s)
      (conversation_limit s)
  else
    let p := history_messages s in
    let p := if (conversation_limit s <=? N.of_nat (pool_len p))%N
             then pop_message p else p in
    mkSession (system_message s) (push_message p hm) (pending_message s)
      (conversation_limit s).

(** [fn get_history_message] *)
Definition get_history_message (s : Session) (i : Z) : option Message :=
  message <$> get_message (history_messages s) i.

(** [fn get_history_messages]: the system message first, then the pool. *)
Definition get_history_messages (s : Session) : list Message :=
  let msg_iter := map message (pool_iter (history_messages s)) in
  match system_message s with
  | Some sys_msg => sys_msg :: msg_iter
  | None => msg_iter
  end.

(** [fn swap_pending_message]: [Option::replace] or [Option::take]. *)
Definition swap_pending_message (s : Session) (msg : option Message)
  : option Message * Session :=
  match msg with
  | Some m => (pending_message s,
               mkSession (system_message s) (history_messages s) (Some m)
                 (conversation_limit s))
  | None => (pending_message s,
             mkSession (system_message s) (history_messages s) None
               (conversation_limit s))
  end.

(** Running a sequence of [add_history_message] calls. *)
Definition add_all (s : Session) (hms : list HistoryMessage) : Session :=
  fold_left add_history_message hms s.

End Session.

(* ================================================================== *)
(** * stream_ext.rs: ThrottleBuffer *)
(* ================================================================== *)

Module Throttle.
Section Throttle.

(** The inner stream's item type; the buffer [B] is [Vec<Item>] at the
    only use site ([throttle_buffer::<Vec<_>>]), so [extend] appends. *)
Variable Item : Type.

(** One [poll_next] of the inner stream. *)
Inductive InnerPoll :=
  | IReady (x : Item)   (* Poll::Ready(Some(x)) *)
  | IEnd                (* Poll::Ready(None) *)
  | IPending.           (* Poll::Pending *)

(** What the outer [poll_next] returns. *)
Inductive Output :=
  | OItem (b : list Item)   (* Poll::Ready(Some(b)) *)
  | OEnd                    (* Poll::Ready(None) *)
  | OPending.               (* Poll::Pending *)

(** [ThrottleBuffer { stream, interval, buffer, active_sleep, done }].
    The inner stream is the script of its remaining poll results (an
    exhausted script stays pending); [active_sleep] records whether a
    [Sleep] is armed. *)
Record ThrottleBuffer := mkTB {
  stream : list InnerPoll;
  buffer : option (list Item);
  active_sleep : bool;
  done : bool
}.

(** [ThrottleBuffer::new] *)
Definition new_tb (st : list InnerPoll) : ThrottleBuffer := mkTB st None false false.

(** The [loop] polling the inner stream until it is pending or finished:
    the rest of the script, the buffer, and whether [done] was set. *)
Fixpoint drain (st : list InnerPoll) (buf : option (list Item))
  : list InnerPoll * option (list Item) * bool :=
  match st with
  | [] => ([], buf, false)
  | IReady x :: st' => drain st' (Some (default [] buf ++ [x]))
  | IEnd :: st' => (st', buf, true)
  | IPending :: st' => (st', buf, false)
  end.

(** [fn poll_next]; [sleep_elapsed] is what polling the armed [Sleep]
    reports at this poll. *)
Definition poll_next (tb : ThrottleBuffer) (sleep_elapsed : bool)
  : Output * ThrottleBuffer :=
  if done tb then
    match buffer tb with
    | Some b => (OItem b, mkTB (stream tb) None (active_sleep tb) true)
    | None => (OEnd, tb)
    end
  else
    let '(st', buf, d) := drain (stream tb) (buffer tb) in
    match buf with
    | None => (OPending, mkTB st' None (active_sleep tb) d)
    | Some b =>
        if active_sleep tb && negb sleep_elapsed
        then (OPending, mkTB st' (Some b) (active_sleep tb) d)
        else (OItem b, mkTB st' None true d)
    end.

(** Polling repeatedly, one [sleep_elapsed] answer per poll. *)
Fixpoint run (tb : ThrottleBuffer) (ts : list bool) : list Output * ThrottleBuffer :=
  match ts with
  | [] => ([], tb)
  | t :: ts' =>
      let '(o, tb1) := poll_next tb t in
      let '(os, tb2) := run tb1 ts' in
      (o :: os, tb2)
  end.

(** The items the inner stream yields before it ends. *)
Fixpoint input_items (st : list InnerPoll) : list Item :=
  match st with
  | [] => []
  | IReady x :: st' => x :: input_items st'
  | IEnd :: _ => []
  | IPending :: st' => input_items st'
  end.

(** The buffers emitted, in order. *)
Fixpoint emitted (os : list Output) : list (list Item) :=
  match os with
  | [] => []
  | OItem b :: os' => b :: emitted os'
  | _ :: os' => emitted os'
  end.

End Throttle.
Arguments IReady {Item} x.
Arguments IEnd {Item}.
Arguments IPending {Item}.
Arguments OItem {Item} b.
Arguments OEnd {Item}.
Arguments OPending {Item}.
Arguments new_tb {Item} st.
Arguments poll_next {Item} tb sleep_elapsed.
Arguments run {Item} tb ts.
Arguments input_items {Item} st.
Arguments emitted {Item} os.
Arguments drain {Item} st buf.
Arguments mkTB {Item} stream buffer active_sleep done.
Arguments stream {Item} _.
Arguments buffer {Item} _.
Arguments active_sleep {Item} _.
Arguments done {Item} _.
End Throttle.

(* ================================================================== *)
(** * braille.rs: BrailleProgress *)
(* ================================================================== *)

Module Braille.

(** [usize] arithmetic, panicking (here: [None]) on overflow, underflow
    and division by zero. *)
Definition usize_ok (z : Z) : option Z := if (0 <=? z) && (z <? 2 ^ 64) then Some z else None.
Definition add_usize (a b : Z) : option Z := usize_ok (a + b).
Definition sub_usize (a b : Z) : option Z := usize_ok (a - b).
Definition mul_usize (a b : Z) : option Z := usize_ok (a * b).
Definition rem_usize (a b : Z) : option Z := if b =? 0 then None else Some (a mod b).

(** [as i32] truncates; [i32] arithmetic is checked. *)
Definition as_i32 (z : Z) : Z := ((z + 2 ^ 31) mod 2 ^ 32) - 2 ^ 31.
Definition i32_ok (z : Z) : option Z :=
  if (- 2 ^ 31 <=? z) && (z <? 2 ^ 31) then Some z else None.
Definition add_i32 (a b : Z) : option Z := i32_ok (a + b).
Definition sub_i32 (a b : Z) : option Z := i32_ok (a - b).

(** [mod symbols] *)
Definition BLANK : Z := 10240.  (* 0x2800 *)
Definition DOTS : list (list Z) := [[1; 8]; [2; 16]; [4; 32]; [64; 128]].
Definition dot (i j : nat) : Z := nth j (nth i DOTS []) 0.

(** [struct BrailleProgress]; [label] as its code points. *)
Record BrailleProgress := mkBP {
  width : Z; height : Z; length : Z; current : Z; label : option (list Z)
}.

(** [BrailleProgress::new] *)
Definition new_bp (w h l : Z) (lbl : option (list Z)) : BrailleProgress :=
  mkBP w h l 0 lbl.

(** [fn pixel_length] *)
Definition pixel_length (bp : BrailleProgress) : option Z :=
  pixel_width ← mul_usize (width bp) 2;
  pixel_height ← mul_usize (height bp) 4;
  s ← add_usize pixel_width pixel_height;
  s ← sub_usize s 2;
  mul_usize s 2.

(** [fn advance_progress] *)
Definition advance_progress (bp : BrailleProgress) : option BrailleProgress :=
  pl ← pixel_length bp;
  c ← add_usize (current bp) 1;
  c ← rem_usize c pl;
  Some (mkBP (width bp) (height bp) (length bp) c (label bp)).

(** [*chars.get_mut(idx).unwrap() |= bit] *)
Definition or_at (idx bit : Z) (chars : list Z) : option (list Z) :=
  if (0 <=? idx) && (idx <? Z.of_nat (base.length chars))
  then Some (alter (fun c => Z.lor c bit) (Z.to_nat idx) chars)
  else None.

(** The inner [for i in ..] loop over one cell: light the bit when
    [range.contains(&counter) || counter <= out_of_range], then
    [counter += 1]. *)
Fixpoint visit_bits (lo hi oor idx : Z) (bits : list Z) (chars : list Z) (counter : Z)
  : option (list Z * Z) :=
  match bits with
  | [] => Some (chars, counter)
  | bit :: bits' =>
      chars' ← (if ((lo <=? counter) && (counter <? hi)) || (counter <=? oor)
                then or_at idx bit chars else Some chars);
      counter' ← add_i32 counter 1;
      visit_bits lo hi oor idx bits' chars' counter'
  end.

(** The outer loop over the cells of one side. *)
Fixpoint visit_cells (lo hi oor : Z) (cells : list Z) (bits : list Z)
    (chars : list Z) (counter : Z) : option (list Z * Z) :=
  match cells with
  | [] => Some (chars, counter)
  | idx :: cells' =>
      '(chars', counter') ← visit_bits lo hi oor idx bits chars counter;
      visit_cells lo hi oor cells' bits chars' counter'
  end.

Definition zrange (n : Z) : list Z := Z.of_nat <$> seq 0 (Z.to_nat n).

(** [result.push('\n')] before each row, then the glyph. *)
Fixpoint render_rows (w : Z) (i : Z) (chars : list Z) : option (list Z) :=
  match chars with
  | [] => Some []
  | ch :: chars' =>
      m ← rem_usize i w;
      rest ← render_rows w (i + 1) chars';
      Some ((if m =? 0 then [10] else []) ++ ch :: rest)
  end.

(** [fn string_for_progress] *)
Definition string_for_progress (bp : BrailleProgress) (cur : Z) : option (list Z) :=
  let w := width bp in
  let h := height bp in
  n ← mul_usize w h;
  let chars := repeat BLANK (Z.to_nat n) in
  pl ← pixel_length bp;
  mc ← rem_usize cur pl;
  let mod_current := as_i32 mc in
  hi ← add_i32 mod_current (as_i32 (length bp));
  oor ← (t ← add_i32 mod_current (as_i32 (length bp));
         t ← sub_i32 t 1;
         sub_i32 t (as_i32 pl));
  (* Top *)
  '(chars, counter) ← visit_cells mod_current hi oor (zrange w)
                         [dot 0 0; dot 0 1] chars 0;
  counter ← sub_i32 counter 1;
  (* Right *)
  right ← mapM (fun y => t ← mul_usize y w; t ← add_usize t w; sub_usize t 1) (zrange h);
  '(chars, counter) ← visit_cells mod_current hi oor right
                         [dot 0 1; dot 1 1; dot 2 1; dot 3 1] chars counter;
  counter ← sub_i32 counter 1;
  (* Bottom *)
  bottom ← mapM (fun x => t ← sub_usize h 1; t ← mul_usize t w; add_usize t x)
              (rev (zrange w));
  '(chars, counter) ← visit_cells mod_current hi oor bottom
                         [dot 3 1; dot 3 0] chars counter;
  counter ← sub_i32 counter 1;
  (* Left *)
  left ← mapM (fun y => mul_usize y w) (rev (zrange h));
  '(chars, counter) ← visit_cells mod_current hi oor left
                         [dot 3 0; dot 2 0; dot 1 0; dot 0 0] chars counter;
  (* debug_assert_eq!(counter - 1, pixel_length as i32) *)
  c1 ← sub_i32 counter 1;
  if c1 =? as_i32 pl then
    rows ← render_rows w 0 chars;
    Some (rows ++ match label bp with Some l => 32 :: l | None => [] end)
  else None.

(** [fn current_string] *)
Definition current_string (bp : BrailleProgress) : option (list Z) :=
  string_for_progress bp (current bp).

(** [n] calls of [advance_progress]. *)
Fixpoint advance_n (n : nat) (bp : BrailleProgress) : option BrailleProgress :=
  match n with
  | O => Some bp
  | S n' => bp' ← advance_n n' bp; advance_progress bp'
  end.

End Braille.

(* ================================================================== *)
(** * mod.rs: stream_model_result and the reply handling *)
(* ================================================================== *)

Module Orchestrator.
Import Session.

(** [openai_client::ChatModelResult] *)
Record ChatModelResult := mkCMR { cmr_content : string; token_usage : Z }.

(** Which branch of the [tokio::select!] completes in one loop round:
    the throttled stream's [next()] or the one-second [sleep]. *)
Inductive Race :=
  | RStream (res : option (list ChatModelResult))
  | RTick.

(** The two [anyhow!] errors of [stream_model_result]. *)
Inductive StreamError :=
  | EmptyResponse   (* "Server returned empty response" *)
  | StreamTimeout.  (* "Stream is timeout" *)

(** Where the [loop] stands after the given rounds. *)
Inductive LoopOutcome :=
  | LoopBreak (last_response : option ChatModelResult)
  | LoopTimeout
  | LoopRunning.

Section Orchestrator.

(** [estimate_tokens] multiplies a byte length by the [f64] 1.4 and
    casts to [u32] (saturating); floating point is left abstract. *)
Variable estimate_tokens : string -> Z.

(** The [loop { tokio::select! { .. } .. }] of [stream_model_result];
    [timeout] is [config.openai_api_timeout]. The progress-bar edit after
    each round ignores its result ([let _ = ..]) and is not modelled. *)
Fixpoint select_loop (timeout timeout_times : N) (last_response : option ChatModelResult)
    (races : list Race) : LoopOutcome :=
  match races with
  | [] => LoopRunning
  | RStream None :: _ => LoopBreak last_response
  | RStream (Some buf) :: rs => select_loop timeout 0 (list.last buf) rs
  | RTick :: rs =>
      let timeout_times := (timeout_times + 1)%N in
      if (timeout <=? timeout_times)%N then LoopTimeout
      else select_loop timeout timeout_times last_response rs
  end.

(** [u32] addition, panicking (here: [None]) on overflow as in a debug
    build. *)
Definition add_u32 (a b : Z) : option Z :=
  if (0 <=? a + b) && (a + b <? 2 ^ 32) then Some (a + b) else None.

(** How [stream_model_result] stands after the given rounds. *)
Inductive StreamOutcome :=
  | SMRunning                                (* the loop has not ended *)
  | SMDone (result : ChatModelResult + StreamError)
  | SMPanic.             (* [estimate_tokens(..) + estimated_prompt_tokens] overflowed *)

(** [stream_model_result] after the stream was opened; both token
    estimates are [u32]. *)
Definition stream_model_result (timeout : N) (estimated_prompt_tokens : Z)
    (races : list Race) : StreamOutcome :=
  match select_loop timeout 0 None races with
  | LoopRunning => SMRunning
  | LoopTimeout => SMDone (inr StreamTimeout)
  | LoopBreak (Some last) =>
      match add_u32 (estimate_tokens (cmr_content last)) estimated_prompt_tokens with
      | Some t => SMDone (inl (mkCMR (cmr_content last) t))
      | None => SMPanic
      end
  | LoopBreak None => SMDone (inr EmptyResponse)
  end.

(** What the user is shown at the end of the turn. *)
Inductive Reply :=
  | ReplyAnswer (content : string)
  | ReplyRetryPrompt   (* [api_error_prompt] with the "Retry" button *)
  | ReplyAborted.      (* the fallback edit failed: [?] returns early *)

(** The [match result { .. }] of [actually_handle_chat_message] on the
    session of the chat; [fallback_edit_ok] is the outcome of the raw
    [edit_message_text(..).await?] when the formatted edit is not used. *)
Definition handle_result (s : Session) (user_msg : Message)
    (fallback_edit_ok : bool) (result : ChatModelResult + StreamError)
  : Session * Reply :=
  match result with
  | inl res =>
      let '(reply_history_message, s) :=
        prepare_history_message s (mkMessage Assistant (cmr_content res)) in
      if fallback_edit_ok then
        let '(user_history_msg, s) := prepare_history_message s user_msg in
        let s := add_history_message s user_history_msg in
        let s := add_history_message s reply_history_message in
        (s, ReplyAnswer (cmr_content res))
      else (s, ReplyAborted)
  | inr _ =>
      let '(_, s) := swap_pending_message s (Some user_msg) in
      (s, ReplyRetryPrompt)
  end.

End Orchestrator.
End Orchestrator.

(* ================================================================== *)
(** * markdown.rs: ParseState and parse *)
(* ================================================================== *)

Module Markdown.

(** Text is a list of Unicode scalar values. *)
Definition str := list Z.

Definition utf8_width (c : Z) : nat :=
  if c <? 128 then 1 else if c <? 2048 then 2 else if c <? 65536 then 3 else 4.
Definition utf16_width (c : Z) : nat := if c <? 65536 then 1 else 2.

(** [str::len] (bytes) and [str::encode_utf16().count()]. *)
Definition utf8_len (s : str) : nat := sum_list (utf8_width <$> s).
Definition utf16_len (s : str) : nat := sum_list (utf16_width <$> s).

Definition NEWLINE : Z := 10.

(** [pulldown_cmark::Tag]; [Heading] carries the level as a number and
    the tags that are not listed ([FootnoteDefinition], [Table], ..) are
    [COtherTag]. [CList] carries the start number ([u64]). *)
Inductive CmarkTag :=
  | CParagraph | CBlockQuote | CHeading (level : nat)
  | CCodeBlockIndented | CCodeBlockFenced (lang : str)
  | CList (first : option N) | CItem
  | CEmphasis | CStrong | CStrikethrough
  | CLink (url : str) | CImage (url : str)
  | COtherTag.

(** [pulldown_cmark::Event]; [FootnoteReference] and [TaskListMarker]
    are [COtherEvent]. *)
Inductive CmarkEvent :=
  | CStart (t : CmarkTag) | CEnd (t : CmarkTag)
  | CText (s : str) | CCode (s : str) | CHtml (s : str)
  | CSoftBreak | CHardBreak | CRule
  | COtherEvent.

Inductive Tag :=
  | Paragraph | Heading (level : nat) | CodeBlock (lang : option str)
  | List (start : option N) | Item | Italic | Bold | Strikethrough
  | Link (url : str) | Image (url : str).

Inductive Event :=
  | Start (t : Tag) | End (t : Tag) | Text (s : str) | Code (s : str) | Break.

(** [teloxide::types::MessageEntityKind], the kinds produced here.
    [TextLink] carries the link's source string; the code stores the
    [url::Url] parsed from it, whose normalised form is not modelled. *)
Inductive MessageEntityKind :=
  | Pre (language : option str) | MItalic | MBold | MStrikethrough
  | TextLink (url : str) | MCode.

Record MessageEntity := mkME { kind : MessageEntityKind; offset : nat; length : nat }.

Record ParsedString := mkPS { content : str; entities : list MessageEntity }.

Definition with_str (s : str) : ParsedString := mkPS s [].

Inductive EntityKind :=
  | TelegramEntityKind (k : MessageEntityKind)
  | EList (start : option N).

Record Entity := mkEntity { ekind : EntityKind; estart : nat }.

(** [ParserError], without its payloads. *)
Inductive ParserError :=
  | UnexpectedCmarkTag | UnexpectedCmarkEvent | InvalidURL
  | UnexpectedTag | UnmatchedEntity.

(** Outcome of a step: a value, an [Err] of the parser, or a panic
    (arithmetic overflow in a debug build, [String::truncate] off a char
    boundary). *)
Inductive res (A : Type) :=
  | ROk (a : A) | RErr (e : ParserError) | RPanic.
Arguments ROk {A} a.
Arguments RErr {A} e.
Arguments RPanic {A}.

Definition res_bind {A B} (m : res A) (k : A -> res B) : res B :=
  match m with ROk a => k a | RErr e => RErr e | RPanic => RPanic end.
Notation "x ←ᵣ m ; k" := (res_bind m (fun x => k))
  (at level 20, m at level 100, k at level 200, right associativity).

(** Checked [usize] and [u64] arithmetic. *)
Definition usize_sub (a b : nat) : res nat :=
  if (b <=? a)%nat then ROk (a - b)%nat else RPanic.
Definition u64_incr (n : N) : res N :=
  if (n + 1 <? 2 ^ 64)%N then ROk (n + 1)%N else RPanic.

(** The [url] crate's parser, left abstract. *)
Section Parse.
Variable url_parses : str -> bool.

Definition tag_of_cmark (t : CmarkTag) : res Tag :=
  match t with
  | CParagraph | CBlockQuote => ROk Paragraph
  | CHeading level => ROk (Heading level)
  | CCodeBlockIndented => ROk (CodeBlock None)
  | CCodeBlockFenced lang => ROk (CodeBlock (Some lang))
  | CList first => ROk (List first)
  | CItem => ROk Item
  | CEmphasis => ROk Italic
  | CStrong => ROk Bold
  | CStrikethrough => ROk Strikethrough
  | CLink url => ROk (Link url)
  | CImage url => ROk (Image url)
  | COtherTag => RErr UnexpectedCmarkTag
  end.

(** ["---"] *)
Definition RULE_TEXT : str := [45; 45; 45].

Definition event_of_cmark (e : CmarkEvent) : res Event :=
  match e with
  | CStart t => tag ←ᵣ tag_of_cmark t; ROk (Start tag)
  | CEnd t => tag ←ᵣ tag_of_cmark t; ROk (End tag)
  | CText s => ROk (Text s)
  | CHtml s | CCode s => ROk (Code s)
  | CSoftBreak | CHardBreak => ROk Break
  | CRule => ROk (Text RULE_TEXT)
  | COtherEvent => RErr UnexpectedCmarkEvent
  end.

Definition entity_kind_of_tag (t : Tag) : res EntityKind :=
  match t with
  | List start => ROk (EList start)
  | CodeBlock lang => ROk (TelegramEntityKind (Pre lang))
  | Italic => ROk (TelegramEntityKind MItalic)
  | Bold => ROk (TelegramEntityKind MBold)
  | Strikethrough => ROk (TelegramEntityKind MStrikethrough)
  | Link url | Image url =>
      if url_parses url then ROk (TelegramEntityKind (TextLink url))
      else RErr InvalidURL
  | _ => RErr UnexpectedTag
  end.

Definition PARAGRAPH_MARGIN : nat := 2.
Definition LIST_ITEM_MARGIN : nat := 1.

(** [entity_stack] is a [Vec] used as a stack: its head here is the
    [last()] element of the [Vec]. *)
Record ParseState := mkState {
  entity_stack : list Entity;
  parsed_string : ParsedString;
  utf16_offset : nat;
  prev_block_margin : nat }.

Definition state_new : ParseState := mkState [] (mkPS [] []) 0 0.

(** [format!("{}", n)]: decimal digits (a [u64] has at most 20). *)
Fixpoint dec_digits (fuel : nat) (n : N) : str :=
  match fuel with
  | O => []
  | S f =>
      if (n <? 10)%N then [48 + Z.of_N n]
      else dec_digits f (n / 10)%N ++ [48 + Z.of_N (n mod 10)%N]
  end.
Definition fmt_u64 (n : N) : str := dec_digits 20 n.

(** [String::truncate(new_len)]: a no-op when [new_len] is at least the
    byte length, a panic when [new_len] is not on a char boundary. *)
Fixpoint prefix_bytes (n : nat) (s : str) : res str :=
  match s with
  | [] => ROk []
  | c :: s' =>
      if (n =? 0)%nat then ROk []
      else if (utf8_width c <=? n)%nat then
        p ←ᵣ prefix_bytes (n - utf8_width c) s'; ROk (c :: p)
      else RPanic
  end.
Definition truncate (s : str) (new_len : nat) : res str :=
  if (utf8_len s <=? new_len)%nat then ROk s else prefix_bytes new_len s.

Definition close (st : ParseState) : res ParsedString :=
  let ps := parsed_string st in
  new_len ←ᵣ usize_sub (utf8_len (content ps)) (prev_block_margin st);
  c ←ᵣ truncate (content ps) new_len;
  ROk (mkPS c (entities ps)).

Definition push_str (st : ParseState) (s : str) : ParseState :=
  mkState (entity_stack st)
    (mkPS (content (parsed_string st) ++ s) (entities (parsed_string st)))
    (utf16_offset st + utf16_len s) 0.

Definition push_block (st : ParseState) (margin : nat) : ParseState :=
  if (margin <=? prev_block_margin st)%nat then st
  else
    let this_margin := (margin - prev_block_margin st)%nat in
    let st := push_str st (repeat NEWLINE this_margin) in
    mkState (entity_stack st) (parsed_string st) (utf16_offset st) margin.

Definition set_margin (st : ParseState) (m : nat) : ParseState :=
  mkState (entity_stack st) (parsed_string st) (utf16_offset st) m.

Definition set_stack (st : ParseState) (stk : list Entity) : ParseState :=
  mkState stk (parsed_string st) (utf16_offset st) (prev_block_margin st).

Definition push_entity (st : ParseState) (e : MessageEntity) : ParseState :=
  mkState (entity_stack st)
    (mkPS (content (parsed_string st)) (entities (parsed_string st) ++ [e]))
    (utf16_offset st) (prev_block_margin st).

(** ["• "] *)
Definition BULLET : str := [8226; 32].

Definition start (st : ParseState) (tag : Tag) : res ParseState :=
  match tag with
  | Paragraph => ROk st
  | Heading level => ROk (push_str st (repeat 35 level ++ [32]))
  | Item =>
      match entity_stack st with
      | mkEntity (EList (Some n)) _ :: _ => ROk (push_str st (fmt_u64 n ++ [46; 32]))
      | mkEntity (EList None) _ :: _ => ROk (push_str st BULLET)
      | _ => RErr UnmatchedEntity
      end
  | _ =>
      match entity_kind_of_tag tag with
      | ROk k => ROk (set_stack st (mkEntity k (utf16_offset st) :: entity_stack st))
      | _ => RErr UnexpectedTag
      end
  end.

(** Pops the top entity and records it as a span when [accept] takes its
    kind. *)
Definition pop_span (st : ParseState) (accept : EntityKind -> option MessageEntityKind)
  : res ParseState :=
  match entity_stack st with
  | [] => RErr UnmatchedEntity
  | mkEntity k s :: stk =>
      match accept k with
      | None => RErr UnmatchedEntity
      | Some mk =>
          len ←ᵣ usize_sub (utf16_offset st) s;
          ROk (push_entity (set_stack st stk) (mkME mk s len))
      end
  end.

Definition accept_pre (k : EntityKind) : option MessageEntityKind :=
  match k with TelegramEntityKind (Pre l) => Some (Pre l) | _ => None end.
Definition accept_inline (k : EntityKind) : option MessageEntityKind :=
  match k with TelegramEntityKind mk => Some mk | _ => None end.
Definition accept_link (k : EntityKind) : option MessageEntityKind :=
  match k with TelegramEntityKind (TextLink u) => Some (TextLink u) | _ => None end.

Definition ends_with_newline (s : str) : bool :=
  match list.last s with Some c => bool_decide (c = NEWLINE) | None => false end.

Definition end_ (st : ParseState) (tag : Tag) : res ParseState :=
  match tag with
  | Paragraph | Heading _ => ROk (push_block st PARAGRAPH_MARGIN)
  | CodeBlock _ =>
      st ←ᵣ pop_span st accept_pre;
      let st := if ends_with_newline (content (parsed_string st))
                then set_margin st 1 else st in
      ROk (push_block st PARAGRAPH_MARGIN)
  | List _ =>
      match entity_stack st with
      | [] => RErr UnmatchedEntity
      | mkEntity (EList _) _ :: stk => ROk (push_block (set_stack st stk) PARAGRAPH_MARGIN)
      | _ :: _ => RErr UnmatchedEntity
      end
  | Item =>
      match entity_stack st with
      | mkEntity (EList (Some n)) s :: stk =>
          n' ←ᵣ u64_incr n;
          ROk (push_block (set_stack st (mkEntity (EList (Some n')) s :: stk))
                 LIST_ITEM_MARGIN)
      | mkEntity (EList None) _ :: _ => ROk (push_block st LIST_ITEM_MARGIN)
      | _ => RErr UnmatchedEntity
      end
  | Italic | Bold | Strikethrough => pop_span st accept_inline
  | Link _ | Image _ => pop_span st accept_link
  end.

Definition code (st : ParseState) (text : str) : res ParseState :=
  let offset := utf16_offset st in
  let st := push_str st text in
  len ←ᵣ usize_sub (utf16_offset st) offset;
  ROk (push_entity st (mkME MCode offset len)).

Definition next_state (st : ParseState) (ev : Event) : res ParseState :=
  match ev with
  | Start tag => start st tag
  | End tag => end_ st tag
  | Text text => ROk (push_str st text)
  | Code text => code st text
  | Break => ROk (push_str st [NEWLINE])
  end.

(** The [try_fold] over the events of [CmarkParser::new_ext]. *)
Fixpoint walk (st : ParseState) (events : list CmarkEvent) : res ParseState :=
  match events with
  | [] => ROk st
  | e :: es =>
      ev ←ᵣ event_of_cmark e;
      st ←ᵣ next_state st ev;
      walk st es
  end.

(** [parse content], given the event sequence pulldown-cmark produces for
    [content] (with [ENABLE_STRIKETHROUGH]); [RPanic] is a panic. *)
Definition parse (input : str) (events : list CmarkEvent) : res ParsedString :=
  match walk state_new events with
  | ROk st => close st
  | RErr _ => ROk (with_str input)
  | RPanic => RPanic
  end.

End Parse.
End Markdown.


(* ================================================================== *)
(** * session_mgr.rs: SessionManager *)
(* ================================================================== *)

Module SessionMgr.
Import Session.

(** [SessionManagerInner { sessions: HashMap<String, Session>, config }]
    behind the [Arc<Mutex<_>>]; every method holds the lock for its whole
    body, so each call is one atomic step on this state. *)
Record SessionManager := mkSM { sessions : gmap string Session; config_limit : N }.

(** [SessionManager::new] *)
Definition sm_new (limit : N) : SessionManager := mkSM ∅ limit.

(** [fn with_mut_session]: [entry(key).or_insert(Session::new(..))],
    then [f] on that session. *)
Definition with_mut_session {R} (mgr : SessionManager) (key : string)
    (f : Session -> R * Session) : R * SessionManager :=
  let s := default (new_session (config_limit mgr)) (sessions mgr !! key) in
  let '(r, s') := f s in
  (r, mkSM (<[key := s']> (sessions mgr)) (config_limit mgr)).

(** [fn reset_session] *)
Definition reset_session (mgr : SessionManager) (key : string) : SessionManager :=
  snd (with_mut_session mgr key (fun s => (tt, reset s))).

(** [fn get_history_messages]: [sessions.get(key).map(..).unwrap_or(vec![])]. *)
Definition get_history_messages (mgr : SessionManager) (key : string) : list Message :=
  from_option Session.get_history_messages [] (sessions mgr !! key).

(** [fn swap_session_pending_message] *)
Definition swap_session_pending_message (mgr : SessionManager) (key : string)
    (msg : option Message) : option Message * SessionManager :=
  with_mut_session mgr key (fun s => swap_pending_message s msg).

(* [add_message_to_session] calls a [Session::add_message] that
   session.rs does not define; it is not modelled. *)

End SessionMgr.


(* ================================================================== *)
(** * openai_client.rs: the scanned response stream *)
(* ================================================================== *)

Module OpenAIClient.
Import Orchestrator.

(** One item of [client.chat().create_stream(req)]: an error, or a
    response whose choices carry an optional [delta.content]. *)
Inductive StreamChunk :=
  | ChunkErr
  | ChunkOk (choices : list (option string)).

(** [cur.as_ref().ok().and_then(|resp| resp.choices.first())
       .and_then(|choice| choice.delta.content.as_ref())] *)
Definition chunk_content (cur : StreamChunk) : option string :=
  match cur with
  | ChunkOk (c :: _) => c
  | _ => None
  end.

(** The closure of the [scan]: [acc.content.push_str(content)] when there
    is a content, then [Some(acc.clone())]. *)
Definition scan_step (acc : ChatModelResult) (cur : StreamChunk) : ChatModelResult :=
  match chunk_content cur with
  | Some content => mkCMR (String.append (cmr_content acc) content) (token_usage acc)
  | None => acc
  end.

(** [stream.scan(acc, ..)]: the closure never returns [None], so every
    input item yields one output item. *)
Fixpoint scan_from (acc : ChatModelResult) (chunks : list StreamChunk)
  : list ChatModelResult :=
  match chunks with
  | [] => []
  | cur :: rest => let acc := scan_step acc cur in acc :: scan_from acc rest
  end.

(** [request_chat_model] once the request is sent: the scanned stream,
    starting from [ChatModelResult::default()]. *)
Definition request_chat_model_stream (chunks : list StreamChunk) : list ChatModelResult :=
  scan_from (mkCMR "" 0) chunks.

End OpenAIClient.


(* ================================================================== *)
(** * mod.rs: the "Show Raw Contents" callback data *)
(* ================================================================== *)

Module ShowRaw.
Import Markdown.

(** ["/show_raw:"] *)
Definition SHOW_RAW_PREFIX : str := [47; 115; 104; 111; 119; 95; 114; 97; 119; 58].

(** [format!("{}", n)] for an [i64]. *)
Definition fmt_i64 (n : Z) : str :=
  if n <? 0 then 45 :: fmt_u64 (Z.to_N (- n)) else fmt_u64 (Z.to_N n).

(** [format!("/show_raw:{}", reply_history_message.id)] *)
Definition show_raw_data (id : Z) : str := SHOW_RAW_PREFIX ++ fmt_i64 id.

(** [str::strip_prefix] *)
Fixpoint strip_prefix (p s : str) : option str :=
  match p, s with
  | [], _ => Some s
  | c :: p', d :: s' => if c =? d then strip_prefix p' s' else None
  | _ :: _, [] => None
  end.

Definition in_i64 (z : Z) : bool := (- 2 ^ 63 <=? z) && (z <? 2 ^ 63).
Definition is_digit (c : Z) : bool := (48 <=? c) && (c <=? 57).

(** The digit loops of [i64::from_str_radix(_, 10)]: [checked_mul] then
    [checked_add] (positive) or [checked_sub] (negative). *)
Fixpoint digits_pos (acc : Z) (ds : str) : option Z :=
  match ds with
  | [] => Some acc
  | c :: ds' =>
      if is_digit c then
        let a := acc * 10 in
        if in_i64 a then
          let a := a + (c - 48) in
          if in_i64 a then digits_pos a ds' else None
        else None
      else None
  end.

Fixpoint digits_neg (acc : Z) (ds : str) : option Z :=
  match ds with
  | [] => Some acc
  | c :: ds' =>
      if is_digit c then
        let a := acc * 10 in
        if in_i64 a then
          let a := a - (c - 48) in
          if in_i64 a then digits_neg a ds' else None
        else None
      else None
  end.

(** [<i64 as FromStr>::from_str]: an empty string, or a lone sign, is
    an error; a leading ['+'] or ['-'] selects the loop. *)
Definition parse_i64 (s : str) : option Z :=
  match s with
  | [] => None
  | c :: rest =>
      if (c =? 43) || (c =? 45) then
        match rest with
        | [] => None
        | _ => if c =? 43 then digits_pos 0 rest else digits_neg 0 rest
        end
      else digits_pos 0 s
  end.

(** The [history_msg_id] of [handle_show_raw_action]:
    [query.data.as_ref().and_then(|data| data.strip_prefix("/show_raw:"))
       .and_then(|id_str| id_str.parse().ok())]. *)
Definition show_raw_id (data : option str) : option Z :=
  (data ≫= strip_prefix SHOW_RAW_PREFIX) ≫= parse_i64.

End ShowRaw.


(* ================================================================== *)
(** * Proofs: session.rs *)
(* ================================================================== *)

Module SessionProofs.
Import Session.

Definition nonsys (h : HistoryMessage) : bool := negb (is_system (role (message h))).

(** The pool holds exactly the entries [l], in deque order. *)
Definition pool_repr (p : HistoryMessagePool) (l : list HistoryMessage) : Prop :=
  deque p = id <$> l /\ NoDup (id <$> l) /\
  messages p = list_to_map ((fun h => (id h, h)) <$> l).

(** The system slot after a sequence of insertions. *)
Definition last_system (o : option Message) (hs : list HistoryMessage) : option Message :=
  fold_left (fun o h => if is_system (role (message h)) then Some (message h) else o) hs o.

(** [N.iter n] prepares [n] entries and drops them. *)
Definition prepare_n (n : N) (s : Session) : Session :=
  N.iter n (fun s => snd (prepare_history_message s (mkMessage User ""))) s.

Lemma NoDup_drop {A} (l : list A) j : NoDup l -> NoDup (drop j l).
Proof.
  revert j. induction l as [|x l IH]; intros j Hnd; destruct j; simpl; try done.
  apply list.NoDup_cons in Hnd as [_ Hnd]. by apply IH.
Qed.

Lemma map_as_fmap {A B} (f : A -> B) (l : list A) : map f l = f <$> l.
Proof. induction l as [|x l IH]; [done|]. simpl. by rewrite IH. Qed.

Lemma keys_fmap (l : list HistoryMessage) :
  ((fun h => (id h, h)) <$> l).*1 = id <$> l.
Proof. induction l as [|h l IH]; [done|]. csimpl. by rewrite IH. Qed.

Lemma pool_repr_iter p l : pool_repr p l -> pool_iter p = l.
Proof.
  intros (Hd & Hnd & Hm). unfold pool_iter. rewrite Hd, Hm.
  assert (Hin : forall h, h ∈ l ->
    (list_to_map ((fun h => (id h, h)) <$> l) : gmap Z HistoryMessage) !! id h = Some h).
  { intros h Hh. apply elem_of_list_to_map_1.
    - by rewrite keys_fmap.
    - apply list_elem_of_fmap. eauto. }
  clear Hd Hm Hnd. revert Hin.
  generalize (list_to_map ((fun h => (id h, h)) <$> l) : gmap Z HistoryMessage).
  intros m. induction l as [|h l IH]; intros Hin; [done|].
  csimpl. rewrite (Hin h) by set_solver. f_equal. apply IH. set_solver.
Qed.

Lemma pool_repr_len p l : pool_repr p l -> pool_len p = length l.
Proof. intros (Hd & _ & _). unfold pool_len. rewrite Hd. apply length_fmap. Qed.

Lemma pool_repr_pop p h l : pool_repr p (h :: l) -> pool_repr (pop_message p) l.
Proof.
  intros (Hd & Hnd & Hm). unfold pop_message. rewrite Hd. csimpl.
  apply list.NoDup_cons in Hnd as [Hni Hnd].
  split; [done|]. split; [done|]. simpl. rewrite Hm. csimpl.
  rewrite delete_insert_eq. apply delete_id.
  apply not_elem_of_list_to_map_1. by rewrite keys_fmap.
Qed.

Lemma pool_repr_pop_nil p : pool_repr p [] -> pop_message p = p.
Proof. intros (Hd & _ & _). unfold pop_message. by rewrite Hd. Qed.

Lemma pool_repr_push p l h :
  pool_repr p l -> id h ∉ id <$> l -> pool_repr (push_message p h) (l ++ [h]).
Proof.
  intros (Hd & Hnd & Hm) Hni. unfold pool_repr, push_message. simpl.
  rewrite !fmap_app. split; [by rewrite Hd|]. split.
  - apply list.NoDup_app. split; [done|]. split; [|apply list.NoDup_singleton].
    intros x Hx Hx'. apply list_elem_of_singleton in Hx'. subst. done.
  - rewrite Hm. csimpl. rewrite list_to_map_snoc; [done|]. by rewrite keys_fmap.
Qed.

(** One non-system insertion drops at most the oldest entry. *)
Lemma add_nonsys_repr s l h :
  pool_repr (history_messages s) l -> nonsys h = true -> id h ∉ id <$> l ->
  exists j, (j <= 1)%nat /\
    pool_repr (history_messages (add_history_message s h)) (drop j (l ++ [h])).
Proof.
  intros Hr Hn Hni. unfold add_history_message, nonsys in *.
  destruct (is_system (role (message h))); [done|]. simpl.
  destruct (conversation_limit s <=? N.of_nat (pool_len (history_messages s)))%N.
  - destruct l as [|h0 l].
    + exists 0%nat. split; [lia|]. rewrite pool_repr_pop_nil by done.
      by apply (pool_repr_push _ []).
    + exists 1%nat. split; [lia|]. simpl.
      apply pool_repr_push; [by eapply pool_repr_pop|].
      intros Hin. apply Hni. csimpl. set_solver.
  - exists 0%nat. split; [lia|]. by apply pool_repr_push.
Qed.

Lemma add_all_repr hs : forall s l,
  pool_repr (history_messages s) l ->
  NoDup (id <$> (l ++ filter (fun h => nonsys h = true) hs)) ->
  exists k, pool_repr (history_messages (add_all s hs))
              (drop k (l ++ filter (fun h => nonsys h = true) hs)) /\
    system_message (add_all s hs) = last_system (system_message s) hs /\
    pending_message (add_all s hs) = pending_message s.
Proof.
  induction hs as [|h hs IH]; intros s l Hr Hnd.
  - exists 0%nat. rewrite app_nil_r. done.
  - unfold add_all in *. simpl.
    destruct (nonsys h) eqn:Hn.
    + rewrite filter_cons_True in Hnd |- * by done.
      assert (Hni : id h ∉ id <$> l).
      { rewrite fmap_app, fmap_cons in Hnd. apply list.NoDup_app in Hnd as (_ & Hd & _).
        intros Hin. apply (Hd (id h)); [done|]. set_solver. }
      destruct (add_nonsys_repr s l h Hr Hn Hni) as (j & Hj & Hr').
      assert (E : forall k, drop k (drop j (l ++ [h]) ++ filter (fun h => nonsys h = true) hs)
                    = drop (j + k) (l ++ h :: filter (fun h => nonsys h = true) hs)).
      { intros k. rewrite <- drop_app_le by (rewrite length_app; simpl; lia).
        by rewrite drop_drop, <- app_assoc. }
      destruct (IH _ _ Hr') as (k & Hk & Hsys & Hpend).
      { pose proof (E 0%nat) as E0. rewrite drop_0, Nat.add_0_r in E0.
        rewrite E0, fmap_drop. by apply NoDup_drop. }
      exists (j + k)%nat. split.
      * by rewrite <- E.
      * unfold nonsys in Hn. apply negb_true_iff in Hn.
        rewrite Hsys, Hpend. unfold add_history_message. rewrite Hn. simpl.
        split; [|done]. unfold last_system. cbn [fold_left]. done.
    + rewrite filter_cons_False in Hnd |- * by (intros ?; congruence).
      unfold nonsys in Hn. apply negb_false_iff in Hn.
      destruct (IH (add_history_message s h) l) as (k & Hk & Hsys & Hpend).
      { unfold add_history_message. by rewrite Hn. }
      { done. }
      exists k. split; [done|]. rewrite Hsys, Hpend.
      unfold add_history_message. rewrite Hn. simpl.
      unfold last_system. cbn [fold_left]. done.
Qed.

(** With a limit of at least one, a non-system insertion keeps the pool
    within the limit. *)
Lemma add_history_message_len_bound s h :
  (1 <= conversation_limit s)%N ->
  (N.of_nat (pool_len (history_messages s)) <= conversation_limit s)%N ->
  (N.of_nat (pool_len (history_messages (add_history_message s h)))
     <= conversation_limit s)%N.
Proof.
  intros H1 Hle. unfold add_history_message.
  destruct (is_system (role (message h))); [done|]. simpl.
  destruct (N.leb_spec (conversation_limit s) (N.of_nat (pool_len (history_messages s)))).
  - unfold pool_len, push_message, pop_message in *. simpl.
    destruct (deque (history_messages s)) as [|i rest]; simpl in *; rewrite length_app; simpl; lia.
  - unfold pool_len, push_message in *. simpl. rewrite length_app. simpl. lia.
Qed.

Lemma prepare_history_message_pool s m :
  history_messages (snd (prepare_history_message s m)) =
    mkPool (wrap_i64 (current_id (history_messages s) + 1))
      (messages (history_messages s)) (deque (history_messages s)).
Proof. reflexivity. Qed.

Lemma wrap_i64_add_idemp a b : wrap_i64 (wrap_i64 a + b) = wrap_i64 (a + b).
Proof.
  unfold wrap_i64. f_equal.
  replace ((a + 2 ^ 63) mod 2 ^ 64 - 2 ^ 63 + b + 2 ^ 63)
    with ((a + 2 ^ 63) mod 2 ^ 64 + b) by lia.
  rewrite Zplus_mod_idemp_l. f_equal. lia.
Qed.

(** Closed form of [prepare_n]: only the id counter moves. *)
Lemma prepare_n_spec n s :
  n = 0%N \/
  history_messages (prepare_n n s) =
    mkPool (wrap_i64 (current_id (history_messages s) + Z.of_N n))
      (messages (history_messages s)) (deque (history_messages s)).
Proof.
  induction n as [|n IH] using N.peano_ind; [by left|]. right.
  unfold prepare_n in *. rewrite N.iter_succ, prepare_history_message_pool.
  destruct IH as [IH|IH].
  - subst n. reflexivity.
  - rewrite IH. simpl. rewrite wrap_i64_add_idemp, N2Z.inj_succ.
    do 2 f_equal. lia.
Qed.

(** C1 (code_bug): with [conversation_limit = 0] the guard
    [len >= limit] evicts from an empty deque and the push then leaves
    one entry, so [history.len() <= conversation_limit] fails after the
    first insertion. *)
Theorem add_history_message_limit_zero_overflows :
  let hm := mkHistoryMessage 1 (mkMessage User "hello") in
  let s := add_history_message (new_session 0) hm in
  pool_len (history_messages s) = 1%nat /\
  (conversation_limit s < N.of_nat (pool_len (history_messages s)))%N /\
  get_history_message s 1 = Some (mkMessage User "hello").
Proof. vm_compute. repeat split; reflexivity. Qed.

(** C6: [swap_pending_message x] returns the previous pending value and
    leaves the slot equal to [x], everything else unchanged; after one
    [swap_pending_message None] a second one returns [None], and a
    stashed message is returned by the first retrieval. *)
Theorem swap_pending_message_spec (s : Session) (x : option Message) :
  fst (swap_pending_message s x) = pending_message s /\
  snd (swap_pending_message s x) =
    mkSession (system_message s) (history_messages s) x (conversation_limit s) /\
  fst (swap_pending_message (snd (swap_pending_message s None)) None) = None /\
  (forall m, fst (swap_pending_message (snd (swap_pending_message s (Some m))) None)
             = Some m).
Proof. destruct x; repeat split; reflexivity. Qed.

(** The last [n] elements of [l]. *)
Definition lastn {A} (n : nat) (l : list A) : list A := drop (length l - n) l.

Lemma lastn_app_lastn {A} n (x y : list A) : lastn n (lastn n x ++ y) = lastn n (x ++ y).
Proof.
  unfold lastn. rewrite <- drop_app_le by lia. rewrite drop_drop.
  f_equal. rewrite length_drop, !length_app. lia.
Qed.

Lemma lastn_length {A} n (l : list A) : (length (lastn n l) <= n)%nat.
Proof. unfold lastn. rewrite length_drop. lia. Qed.

(** A non-system insertion keeps the last [max 1 conversation_limit]
    entries: at the limit (or, with a limit of 0, on a non-empty pool)
    the front entry is evicted before the push. *)
Lemma add_nonsys_keep s l h :
  pool_repr (history_messages s) l ->
  (length l <= Nat.max 1 (N.to_nat (conversation_limit s)))%nat ->
  nonsys h = true -> id h ∉ id <$> l ->
  pool_repr (history_messages (add_history_message s h))
    (lastn (Nat.max 1 (N.to_nat (conversation_limit s))) (l ++ [h])) /\
  system_message (add_history_message s h) = system_message s /\
  pending_message (add_history_message s h) = pending_message s /\
  conversation_limit (add_history_message s h) = conversation_limit s.
Proof.
  intros Hr Hlen Hn Hni. unfold add_history_message, nonsys in *.
  destruct (is_system (role (message h))); [done|]. simpl.
  split_and!; try done.
  rewrite (pool_repr_len _ _ Hr).
  pose proof (N2Nat.id (conversation_limit s)) as HL.
  destruct (N.leb_spec (conversation_limit s) (N.of_nat (length l))) as [Hle|Hlt].
  - destruct l as [|x l].
    + rewrite pool_repr_pop_nil by done. unfold lastn. simpl.
      replace (1 - Nat.max 1 (N.to_nat (conversation_limit s)))%nat with 0%nat by lia.
      by apply (pool_repr_push _ []).
    + pose proof (pool_repr_pop _ _ _ Hr) as Hr'.
      unfold lastn. rewrite length_app. simpl.
      cbn [length] in Hlen, Hle.
      replace (S (length l + 1) - Nat.max 1 (N.to_nat (conversation_limit s)))%nat
        with 1%nat by lia.
      simpl. apply pool_repr_push; [done|]. intros Hin. apply Hni. by right.
  - unfold lastn. rewrite length_app. simpl.
    replace (length l + 1 - Nat.max 1 (N.to_nat (conversation_limit s)))%nat
      with 0%nat by lia.
    rewrite drop_0. by apply pool_repr_push.
Qed.

Lemma add_all_keep hs : forall s l,
  pool_repr (history_messages s) l ->
  (length l <= Nat.max 1 (N.to_nat (conversation_limit s)))%nat ->
  NoDup (id <$> (l ++ filter (fun h => nonsys h = true) hs)) ->
  pool_repr (history_messages (add_all s hs))
    (lastn (Nat.max 1 (N.to_nat (conversation_limit s)))
       (l ++ filter (fun h => nonsys h = true) hs)) /\
  system_message (add_all s hs) = last_system (system_message s) hs.
Proof.
  induction hs as [|h hs IH]; intros s l Hr Hlen Hnd.
  - rewrite app_nil_r. unfold lastn.
    replace (length l - Nat.max 1 (N.to_nat (conversation_limit s)))%nat with 0%nat by lia.
    done.
  - unfold add_all in *. simpl.
    destruct (nonsys h) eqn:Hn.
    + rewrite filter_cons_True in Hnd |- * by done.
      assert (Hni : id h ∉ id <$> l).
      { rewrite fmap_app, fmap_cons in Hnd. apply list.NoDup_app in Hnd as (_ & Hd & _).
        intros Hin. apply (Hd (id h)); [done|]. set_solver. }
      destruct (add_nonsys_keep s l h Hr Hlen Hn Hni) as (Hr' & Hsys & _ & Hlim).
      destruct (IH _ _ Hr') as [Hk Hs].
      { rewrite Hlim. apply lastn_length. }
      { unfold lastn. rewrite <- drop_app_le by lia. rewrite fmap_drop.
        apply NoDup_drop. by rewrite <- app_assoc. }
      rewrite Hlim, lastn_app_lastn, <- app_assoc in Hk. split; [done|].
      rewrite Hs, Hsys. unfold nonsys in Hn. apply negb_true_iff in Hn.
      unfold last_system. cbn [fold_left]. by rewrite Hn.
    + rewrite filter_cons_False in Hnd |- * by (intros ?; congruence).
      unfold nonsys in Hn. apply negb_false_iff in Hn.
      assert (Ha : add_history_message s h =
        mkSession (Some (message h)) (history_messages s) (pending_message s)
          (conversation_limit s)) by (unfold add_history_message; by rewrite Hn).
      rewrite Ha, Hn.
      destruct (IH (mkSession (Some (message h)) (history_messages s) (pending_message s)
          (conversation_limit s)) l Hr Hlen Hnd) as [Hk Hs].
      split; [exact Hk|]. rewrite Hs. done.
Qed.

(** C7: a system message replaces the single system slot and leaves the
    pool untouched, so two system messages in a row leave exactly the
    second; [get_history_messages] lists the system message (if any)
    first, then the pool entries in deque order; and after any sequence of
    insertions with distinct ids from a pool within its bound, that pool
    is the last [max 1 conversation_limit] non-system entries in
    insertion order, listed after the last system message inserted. *)
Theorem add_history_message_system_and_order
    (s : Session) (l hs : list HistoryMessage) :
  pool_repr (history_messages s) l ->
  (length l <= Nat.max 1 (N.to_nat (conversation_limit s)))%nat ->
  NoDup (id <$> (l ++ filter (fun h => nonsys h = true) hs)) ->
  (forall h, is_system (role (message h)) = true ->
     add_history_message s h =
       mkSession (Some (message h)) (history_messages s) (pending_message s)
         (conversation_limit s)) /\
  (forall h1 h2, is_system (role (message h1)) = true ->
     is_system (role (message h2)) = true ->
     add_history_message (add_history_message s h1) h2 =
       mkSession (Some (message h2)) (history_messages s) (pending_message s)
         (conversation_limit s)) /\
  get_history_messages s =
    from_option (fun m => [m]) [] (system_message s) ++ (message <$> l) /\
  pool_repr (history_messages (add_all s hs))
    (lastn (Nat.max 1 (N.to_nat (conversation_limit s)))
       (l ++ filter (fun h => nonsys h = true) hs)) /\
  get_history_messages (add_all s hs) =
    from_option (fun m => [m]) [] (last_system (system_message s) hs)
    ++ (message <$> lastn (Nat.max 1 (N.to_nat (conversation_limit s)))
                     (l ++ filter (fun h => nonsys h = true) hs)).
Proof.
  intros Hr Hlen Hnd.
  destruct (add_all_keep hs s l Hr Hlen Hnd) as [Hk Hsys].
  split_and!.
  - intros h H. unfold add_history_message. by rewrite H.
  - intros h1 h2 H1 H2. unfold add_history_message. rewrite H1. simpl. by rewrite H2.
  - unfold get_history_messages. rewrite (pool_repr_iter _ _ Hr), map_as_fmap.
    by destruct (system_message s).
  - exact Hk.
  - unfold get_history_messages. rewrite (pool_repr_iter _ _ Hk), Hsys, map_as_fmap.
    by destruct (last_system (system_message s) hs).
Qed.

Lemma add_history_message_system_and_order_witness :
  let sys1 := mkHistoryMessage 0 (mkMessage System "be brief") in
  let sys2 := mkHistoryMessage 0 (mkMessage System "be kind") in
  let u i := mkHistoryMessage i (mkMessage User "q") in
  let a i := mkHistoryMessage i (mkMessage Assistant "r") in
  let s := add_all (new_session 2) [sys1; u 1; a 2] in
  let l := [u 1; a 2] in
  let hs := [u 3; sys2; a 4] in
  (pool_repr (history_messages s) l /\
   (length l <= Nat.max 1 (N.to_nat (conversation_limit s)))%nat /\
   NoDup (id <$> (l ++ filter (fun h => nonsys h = true) hs))) /\
  add_history_message (add_history_message s sys1) sys2 =
    mkSession (Some (mkMessage System "be kind")) (history_messages s) None 2 /\
  get_history_messages s =
    [mkMessage System "be brief"; mkMessage User "q"; mkMessage Assistant "r"] /\
  pool_repr (history_messages (add_all s hs)) [u 3; a 4] /\
  get_history_messages (add_all s hs) =
    [mkMessage System "be kind"; mkMessage User "q"; mkMessage Assistant "r"].
Proof.
  intros sys1 sys2 u a s l hs. subst sys1 sys2 u a s l hs.
  set (s := add_all (new_session 2) [mkHistoryMessage 0 (mkMessage System "be brief");
    mkHistoryMessage 1 (mkMessage User "q"); mkHistoryMessage 2 (mkMessage Assistant "r")]).
  set (l := [mkHistoryMessage 1 (mkMessage User "q"); mkHistoryMessage 2 (mkMessage Assistant "r")]).
  set (hs := [mkHistoryMessage 3 (mkMessage User "q");
              mkHistoryMessage 0 (mkMessage System "be kind");
              mkHistoryMessage 4 (mkMessage Assistant "r")]).
  assert (H1 : pool_repr (history_messages s) l).
  { split_and!; [reflexivity| |reflexivity].
    apply (bool_decide_unpack (NoDup [1; 2])). vm_compute. reflexivity. }
  assert (H2 : (length l <= Nat.max 1 (N.to_nat (conversation_limit s)))%nat)
    by (vm_compute; lia).
  assert (H3 : NoDup (id <$> (l ++ filter (fun h => nonsys h = true) hs)))
    by (apply (bool_decide_unpack (NoDup [1; 2; 3; 4])); vm_compute; reflexivity).
  destruct (add_history_message_system_and_order s l hs H1 H2 H3)
    as (_ & Htwo & Hget & Hpool & Hgets).
  split; [exact (conj H1 (conj H2 H3))|]. split_and!.
  - exact (Htwo (mkHistoryMessage 0 (mkMessage System "be brief"))
      (mkHistoryMessage 0 (mkMessage System "be kind")) eq_refl eq_refl).
  - exact Hget.
  - exact Hpool.
  - rewrite Hgets. reflexivity.
Defined.

Lemma prepare_history_message_id s m :
  id (fst (prepare_history_message s m)) = wrap_i64 (current_id (history_messages s) + 1).
Proof. reflexivity. Qed.

(** Two ids fewer than [2^64 - 1] allocations apart never collide. *)
Lemma wrap_i64_window_ne c k :
  0 <= k < 2 ^ 64 - 1 -> wrap_i64 (c + 1) <> wrap_i64 (c - k).
Proof.
  intros Hk Heq. unfold wrap_i64 in Heq.
  assert (E : (c - k + 2 ^ 63 + (k + 1)) mod 2 ^ 64 = (c - k + 2 ^ 63) mod 2 ^ 64).
  { replace (c - k + 2 ^ 63 + (k + 1)) with (c + 1 + 2 ^ 63) by lia. lia. }
  set (a := c - k + 2 ^ 63) in E.
  pose proof (Z.div_mod (a + (k + 1)) (2 ^ 64) ltac:(lia)) as D1.
  pose proof (Z.div_mod a (2 ^ 64) ltac:(lia)) as D2.
  rewrite E in D1.
  assert (Hq : k + 1 = 2 ^ 64 * ((a + (k + 1)) / 2 ^ 64 - a / 2 ^ 64)) by lia.
  destruct (Z.le_gt_cases ((a + (k + 1)) / 2 ^ 64 - a / 2 ^ 64) 0); nia.
Qed.

(** C8 (amended): [prepare_history_message] returns the next id (i64
    wrapping increment) and changes only the id counter: the system slot,
    the pool and its order, the pending slot and every
    [get_history_message] are unchanged; the new id is not retrievable
    before it is committed as long as every retained id was allocated
    fewer than [2^64 - 1] allocations ago (the counter has not wrapped
    around onto a retained id). *)
Theorem prepare_history_message_frame (s : Session) (m : Message) :
  (forall i, is_Some (get_history_message s i) ->
     exists k, 0 <= k < 2 ^ 64 - 1 /\ i = wrap_i64 (current_id (history_messages s) - k)) ->
  id (fst (prepare_history_message s m)) = wrap_i64 (current_id (history_messages s) + 1) /\
  message (fst (prepare_history_message s m)) = m /\
  system_message (snd (prepare_history_message s m)) = system_message s /\
  pending_message (snd (prepare_history_message s m)) = pending_message s /\
  messages (history_messages (snd (prepare_history_message s m)))
    = messages (history_messages s) /\
  deque (history_messages (snd (prepare_history_message s m)))
    = deque (history_messages s) /\
  get_history_messages (snd (prepare_history_message s m)) = get_history_messages s /\
  (forall i, get_history_message (snd (prepare_history_message s m)) i
             = get_history_message s i) /\
  get_history_message (snd (prepare_history_message s m))
    (id (fst (prepare_history_message s m))) = None.
Proof.
  intros Hwin.
  assert (Hget : forall i, get_history_message (snd (prepare_history_message s m)) i
                           = get_history_message s i) by reflexivity.
  repeat split; try reflexivity; try exact Hget.
  rewrite Hget, prepare_history_message_id.
  destruct (get_history_message s (wrap_i64 (current_id (history_messages s) + 1)))
    eqn:Hs; [|done].
  destruct (Hwin _ ltac:(by rewrite Hs)) as (k & Hk & Heq).
  exfalso. by apply (wrap_i64_window_ne (current_id (history_messages s)) k).
Qed.

Lemma prepare_history_message_frame_witness :
  let m := mkMessage User "hello" in
  let r := prepare_history_message (new_session 20) m in
  let s := add_history_message (snd r) (fst r) in
  (forall i, is_Some (get_history_message s i) ->
     exists k, 0 <= k < 2 ^ 64 - 1 /\ i = wrap_i64 (current_id (history_messages s) - k)) /\
  get_history_message (snd (prepare_history_message s m))
    (id (fst (prepare_history_message s m))) = None.
Proof.
  intros m r s.
  assert (Hwin : forall i, is_Some (get_history_message s i) ->
     exists k, 0 <= k < 2 ^ 64 - 1 /\ i = wrap_i64 (current_id (history_messages s) - k)).
  { intros i [x Hx]. destruct (decide (i = 1)) as [->|Hne].
    - exists 0. split; [lia|]. vm_compute. reflexivity.
    - exfalso. revert Hx. unfold get_history_message, get_message. simpl.
      rewrite lookup_insert_ne; [by rewrite lookup_empty|].
      intros Heq. apply Hne. rewrite <- Heq. reflexivity. }
  split; [exact Hwin|].
  apply (prepare_history_message_frame s m Hwin).
Defined.

(** C8 (counterexample): from a fresh session, commit entry 1, then
    allocate [2^64 - 1] more ids without committing them; the id counter
    has wrapped to 0 and the next [prepare_history_message] returns id 1,
    which [get_history_message] already finds before any commit. *)
Lemma prepare_history_message_wrapped_id_retrievable :
  let m := mkMessage User "hello" in
  let r1 := prepare_history_message (new_session 20) m in
  let s1 := add_history_message (snd r1) (fst r1) in
  let s2 := prepare_n (2 ^ 64 - 1)%N s1 in
  let r2 := prepare_history_message s2 m in
  id (fst r2) = id (fst r1) /\ get_history_message (snd r2) (id (fst r2)) = Some m.
Proof.
  intros m r1 s1 s2 r2.
  destruct (prepare_n_spec (2 ^ 64 - 1)%N s1) as [H|H]; [discriminate|].
  unfold r2. rewrite prepare_history_message_id. unfold get_history_message, get_message.
  rewrite prepare_history_message_pool. unfold s2. rewrite H. simpl.
  split; vm_compute; reflexivity.
Qed.

End SessionProofs.

(* ================================================================== *)
(** * Proofs: stream_ext.rs *)
(* ================================================================== *)

Module ThrottleProofs.
Import Throttle.

Section Proofs.
Context {Item : Type}.
Implicit Types (tb : ThrottleBuffer Item) (st : list (InnerPoll Item)).

(** The items not yet emitted: the buffer, then what the inner stream
    still has to yield. *)
Definition remaining tb : list Item :=
  default [] (buffer tb) ++ (if done tb then [] else input_items (stream tb)).

Definition buf_ok tb : Prop := forall b, buffer tb = Some b -> b <> [].

Lemma drain_spec st buf :
  let '(st', buf', d) := drain st buf in
  default [] buf' ++ (if d then [] else input_items st') = default [] buf ++ input_items st /\
  ((forall b, buf = Some b -> b <> []) -> forall b, buf' = Some b -> b <> []) /\
  (buf' = None -> buf = None).
Proof.
  revert buf. induction st as [|[x| |] st IH]; intros buf; simpl.
  - rewrite app_nil_r. done.
  - specialize (IH (Some (default [] buf ++ [x]))).
    destruct (drain st _) as [[st' buf'] d]. destruct IH as (IH1 & IH2 & IH3).
    split; [rewrite IH1; simpl; by rewrite <- app_assoc|]. split.
    + intros _. apply IH2. intros b [= <-]. destruct (default [] buf); simpl; done.
    + intros Hn. specialize (IH3 Hn). discriminate.
  - rewrite !app_nil_r. done.
  - done.
Qed.

Lemma poll_next_remaining tb t :
  let '(o, tb1) := poll_next tb t in
  concat (emitted [o]) ++ remaining tb1 = remaining tb /\
  (buf_ok tb -> buf_ok tb1 /\ forall b, o = OItem b -> b <> []).
Proof.
  unfold poll_next, remaining, buf_ok.
  destruct (done tb) eqn:Hd.
  - destruct (buffer tb) as [b|] eqn:Hb; simpl.
    + rewrite !app_nil_r. split; [done|].
      intros Hok. split; [done|]. intros b' [= <-]. by apply Hok.
    + split; [by rewrite Hd, Hb|]. intros Hok; split; [by rewrite Hb|done].
  - pose proof (drain_spec (stream tb) (buffer tb)) as Hdr.
    destruct (drain (stream tb) (buffer tb)) as [[st' buf'] d].
    destruct Hdr as (H1 & H2 & H3).
    destruct buf' as [b|]; [destruct (active_sleep tb && negb t)|]; simpl.
    + split; [by rewrite <- H1|]. intros Hok. split; [|done]. by apply H2.
    + split; [rewrite app_nil_r; by rewrite <- H1|].
      intros Hok. split; [done|]. intros b' [= <-]. by apply H2.
    + split; [by rewrite <- H1|]. intros Hok. done.
Qed.

Lemma poll_next_end tb t :
  fst (poll_next tb t) = OEnd -> done tb = true /\ buffer tb = None /\ snd (poll_next tb t) = tb.
Proof.
  unfold poll_next. destruct (done tb); [destruct (buffer tb); simpl; done|].
  destruct (drain (stream tb) (buffer tb)) as [[st' [b|]] d];
    [destruct (active_sleep tb && negb t)|]; simpl; done.
Qed.

Lemma run_finished tb ts :
  done tb = true -> buffer tb = None -> snd (run tb ts) = tb.
Proof.
  intros Hd Hb. induction ts as [|t ts IH]; [done|]. simpl.
  unfold poll_next at 1. rewrite Hd, Hb.
  pose proof IH as IH'. destruct (run tb ts). done.
Qed.

Lemma run_remaining tb ts :
  concat (emitted (fst (run tb ts))) ++ remaining (snd (run tb ts)) = remaining tb /\
  (buf_ok tb -> forall b, b ∈ emitted (fst (run tb ts)) -> b <> []) /\
  (OEnd ∈ fst (run tb ts) -> remaining (snd (run tb ts)) = []).
Proof.
  revert tb. induction ts as [|t ts IH]; intros tb; simpl.
  - split; [done|]. split; [intros _ b Hb; by apply elem_of_nil in Hb|].
    intros Hin. by apply elem_of_nil in Hin.
  - pose proof (poll_next_remaining tb t) as Hp.
    pose proof (poll_next_end tb t) as He.
    destruct (poll_next tb t) as [o tb1] eqn:Hpoll. destruct Hp as (Hp1 & Hp2).
    destruct (IH tb1) as (IH1 & IH2 & IH3).
    destruct (run tb1 ts) as [os tb2] eqn:Hrun. simpl in *.
    split; [|split].
    + destruct o; simpl in *; rewrite ?app_nil_r in Hp1;
        rewrite <- Hp1, <- IH1; try done. by rewrite <- app_assoc.
    + intros Hok b Hb. destruct (Hp2 Hok) as [Hok1 Ho].
      destruct o; simpl in Hb;
        [apply elem_of_cons in Hb as [->|Hb]; [by apply Ho|]| |];
        by apply (IH2 Hok1).
    + intros Hin. apply elem_of_cons in Hin as [<-|Hin]; [|by apply IH3].
      destruct (He eq_refl) as (Hd & Hb & ->).
      pose proof (run_finished tb ts Hd Hb) as Hf. rewrite Hrun in Hf. simpl in Hf.
      subst tb2. unfold remaining. by rewrite Hd, Hb.
Qed.

Lemma last_concat_nonempty (bs : list (list Item)) x :
  (forall b, b ∈ bs -> b <> []) -> list.last (concat bs) = Some x ->
  exists b, list.last bs = Some b /\ list.last b = Some x.
Proof.
  induction bs as [|b bs IH]; intros Hne Hl; simpl in Hl; [done|].
  rewrite last_app in Hl. destruct (list.last (concat bs)) as [y|] eqn:E.
  - injection Hl as ->. destruct (IH (fun b' Hb' => Hne b' ltac:(set_solver)) eq_refl)
      as (b' & Hb' & Hx). exists b'. split; [|done]. rewrite last_cons, Hb'. done.
  - exists b. split; [|done]. apply last_None in E.
    destruct bs as [|b1 bs]; [done|]. simpl in E. apply app_eq_nil in E as [E _].
    exfalso. apply (Hne b1); [set_solver|done].
Qed.

(** The poll at which the inner stream's end is observed: with nothing
    buffered it is pending and the next poll ends the stream; otherwise
    the buffer is emitted at this poll or the next, and the poll after
    that ends the stream. *)
Lemma poll_next_end_observed tb t t1 t2 :
  done tb = false -> done (snd (poll_next tb t)) = true ->
  (fst (poll_next tb t) = OPending /\ buffer (snd (poll_next tb t)) = None /\
     fst (poll_next (snd (poll_next tb t)) t1) = OEnd)
  \/ (exists b, fst (poll_next tb t) = OItem b /\
     fst (poll_next (snd (poll_next tb t)) t1) = OEnd)
  \/ (exists b, fst (poll_next tb t) = OPending /\ buffer (snd (poll_next tb t)) = Some b /\
     fst (poll_next (snd (poll_next tb t)) t1) = OItem b /\
     fst (poll_next (snd (poll_next (snd (poll_next tb t)) t1)) t2) = OEnd).
Proof.
  intros Hd. unfold poll_next. rewrite Hd.
  destruct (drain (stream tb) (buffer tb)) as [[st' [b|]] d];
    [destruct (active_sleep tb && negb t)|]; simpl; intros ->.
  - right; right. exists b. repeat split.
  - right; left. exists b. done.
  - left. done.
Qed.

(** C2: if the output stream ends, the emitted buffers concatenate to
    exactly the input items in order, the last emitted buffer ends with
    the last input item, and the items buffered when the inner stream's
    end is observed go out in exactly one further buffer before the
    output ends. *)
Theorem throttle_buffer_emits_all_items (st : list (InnerPoll Item)) (ts : list bool) :
  OEnd ∈ fst (run (new_tb st) ts) ->
  concat (emitted (fst (run (new_tb st) ts))) = input_items st /\
  (forall x, list.last (input_items st) = Some x ->
     exists b, list.last (emitted (fst (run (new_tb st) ts))) = Some b /\ list.last b = Some x) /\
  (forall (tb : ThrottleBuffer Item) t t1 t2,
     done tb = false -> done (snd (poll_next tb t)) = true ->
     (fst (poll_next tb t) = OPending /\ buffer (snd (poll_next tb t)) = None /\
        fst (poll_next (snd (poll_next tb t)) t1) = OEnd)
     \/ (exists b, fst (poll_next tb t) = OItem b /\
        fst (poll_next (snd (poll_next tb t)) t1) = OEnd)
     \/ (exists b, fst (poll_next tb t) = OPending /\ buffer (snd (poll_next tb t)) = Some b /\
        fst (poll_next (snd (poll_next tb t)) t1) = OItem b /\
        fst (poll_next (snd (poll_next (snd (poll_next tb t)) t1)) t2) = OEnd)).
Proof.
  intros Hend.
  destruct (run_remaining (new_tb st) ts) as (H1 & H2 & H3).
  assert (Hall : concat (emitted (fst (run (new_tb st) ts))) = input_items st).
  { rewrite (H3 Hend), app_nil_r in H1. exact H1. }
  split; [exact Hall|]. split.
  - intros x Hx. apply last_concat_nonempty; [|by rewrite Hall].
    apply H2. intros b Hb. discriminate.
  - intros tb t t1 t2. apply poll_next_end_observed.
Qed.

End Proofs.

Lemma throttle_buffer_emits_all_items_witness :
  let st := [IReady 1%nat; IPending; IReady 2%nat; IEnd] in
  let ts := [true; false; true; true] in
  OEnd ∈ fst (run (new_tb st) ts) /\
  concat (emitted (fst (run (new_tb st) ts))) = input_items st.
Proof.
  intros st ts.
  assert (Hend : OEnd ∈ fst (run (new_tb st) ts)).
  { apply list_elem_of_In. vm_compute. tauto. }
  split; [exact Hend|].
  apply (throttle_buffer_emits_all_items st ts Hend).
Defined.

(** C3 (code_bug): when the inner stream reports its end at a poll with
    nothing buffered, [poll_next] sets [done] but falls through to the
    [buffer.is_none()] check and returns [Poll::Pending]; only a later
    poll reaches the [done] branch and reports the end. *)
Theorem throttle_buffer_empty_end_is_pending (t t' : bool) :
  let tb := new_tb (@IEnd nat :: []) in
  fst (poll_next tb t) = OPending /\
  done (snd (poll_next tb t)) = true /\
  buffer (snd (poll_next tb t)) = None /\
  fst (poll_next (snd (poll_next tb t)) t') = OEnd.
Proof. repeat split. Qed.

End ThrottleProofs.

(* ================================================================== *)
(** * Proofs: braille.rs *)
(* ================================================================== *)

Module BrailleProofs.
Import Braille.

Example string_for_progress_1x1 :
  string_for_progress (new_bp 1 1 3 None) 0 = Some [10; 10265].
Proof. vm_compute. reflexivity. Qed.

Lemma usize_ok_Some z v : usize_ok z = Some v -> v = z /\ 0 <= z < 2 ^ 64.
Proof.
  unfold usize_ok. destruct (Z.leb_spec 0 z), (Z.ltb_spec z (2 ^ 64)); simpl;
    intros Hs; try discriminate. injection Hs as <-. lia.
Qed.

Lemma pixel_length_Some bp pl :
  pixel_length bp = Some pl ->
  pl = (2 * width bp + 4 * height bp - 2) * 2 /\ 0 <= pl < 2 ^ 64.
Proof.
  unfold pixel_length, mul_usize, add_usize, sub_usize. intros H.
  repeat match goal with
         | Hb : mbind _ _ = Some _ |- _ => apply bind_Some in Hb as (? & ? & ?)
         end.
  repeat match goal with
         | Hu : usize_ok _ = Some _ |- _ => apply usize_ok_Some in Hu as [? ?]
         end.
  subst. lia.
Qed.

Lemma pixel_length_range bp pl : pixel_length bp = Some pl -> 0 <= pl < 2 ^ 64.
Proof. intros H. apply pixel_length_Some in H. lia. Qed.

Lemma pixel_length_with_current bp c :
  pixel_length (mkBP (width bp) (height bp) (length bp) c (label bp)) = pixel_length bp.
Proof. reflexivity. Qed.

Lemma rem_usize_periodic c pl : rem_usize (c + pl) pl = rem_usize c pl.
Proof.
  unfold rem_usize. destruct (Z.eqb_spec pl 0); [done|].
  f_equal. rewrite <- (Z.mul_1_l pl) at 1. by rewrite Z_mod_plus_full.
Qed.

Lemma advance_n_spec bp pl k :
  pixel_length bp = Some pl -> 0 <= current bp < pl ->
  advance_n k bp =
    Some (mkBP (width bp) (height bp) (length bp)
            ((current bp + Z.of_nat k) mod pl) (label bp)).
Proof.
  intros Hpl Hc. pose proof (pixel_length_range _ _ Hpl) as Hr.
  induction k as [|k IH]; simpl.
  - rewrite Z.add_0_r, Z.mod_small by lia. by destruct bp.
  - rewrite IH. simpl. unfold advance_progress. simpl.
    rewrite pixel_length_with_current, Hpl. simpl.
    pose proof (Z.mod_pos_bound (current bp + Z.of_nat k) pl ltac:(lia)).
    unfold add_usize, usize_ok.
    destruct (Z.leb_spec 0 ((current bp + Z.of_nat k) mod pl + 1)); [|lia].
    destruct (Z.ltb_spec ((current bp + Z.of_nat k) mod pl + 1) (2 ^ 64)); [|lia]. simpl.
    unfold rem_usize. destruct (Z.eqb_spec pl 0); [lia|]. simpl.
    do 2 f_equal. rewrite Zplus_mod_idemp_l. f_equal. lia.
Qed.

(** Every reachable indicator has its counter below the perimeter. *)
Lemma advance_progress_current_bound bp bp' pl :
  pixel_length bp = Some pl -> advance_progress bp = Some bp' ->
  0 <= current bp' < pl.
Proof.
  intros Hpl. unfold advance_progress. rewrite Hpl. simpl.
  destruct (add_usize (current bp) 1); [|done]. simpl.
  unfold rem_usize. destruct (Z.eqb_spec pl 0); [done|]. simpl.
  intros [= <-]. simpl. pose proof (pixel_length_range _ _ Hpl).
  apply Z.mod_pos_bound. lia.
Qed.

(** C9: the rendering depends on the counter only modulo the perimeter
    [pixel_length = (2 * width + 4 * height - 2) * 2], and
    [pixel_length] calls of [advance_progress] bring a reachable
    indicator (counter below the perimeter) back to itself. *)
Theorem string_for_progress_periodic (bp : BrailleProgress) (pl c : Z) :
  pixel_length bp = Some pl ->
  (0 <= current bp < pl \/ pl = 0) ->
  string_for_progress bp (c + pl) = string_for_progress bp c /\
  advance_n (Z.to_nat pl) bp = Some bp /\
  pl = (2 * width bp + 4 * height bp - 2) * 2.
Proof.
  intros Hpl Hc. split; [|split].
  - unfold string_for_progress. rewrite Hpl. simpl. by rewrite rem_usize_periodic.
  - destruct Hc as [Hc| ->]; [|done].
    rewrite (advance_n_spec bp pl) by done.
    rewrite Z2Nat.id by lia.
    assert (E : (current bp + pl) mod pl = current bp).
    { rewrite Z.add_mod, Z.mod_same, Z.add_0_r, Z.mod_mod, Z.mod_small; lia. }
    rewrite E. by destruct bp.
  - apply pixel_length_Some in Hpl. lia.
Qed.

Lemma string_for_progress_periodic_witness :
  let bp := new_bp 1 1 3 None in
  pixel_length bp = Some 8 /\
  string_for_progress bp (5 + 8) = string_for_progress bp 5 /\
  advance_n (Z.to_nat 8) bp = Some bp.
Proof.
  intros bp. assert (H : pixel_length bp = Some 8) by reflexivity.
  split; [exact H|].
  destruct (string_for_progress_periodic bp 8 5 H ltac:(left; simpl; lia)) as (H1 & H2 & _).
  split; [exact H1|exact H2].
Defined.

End BrailleProofs.

(* ================================================================== *)
(** * Proofs: mod.rs *)
(* ================================================================== *)

Module OrchestratorProofs.
Import Session Orchestrator.

Lemma select_loop_ticks_then_end T tt lr k rest :
  select_loop T tt lr (repeat RTick k ++ RStream None :: rest) =
    if (1 <=? N.of_nat k)%N && (T <=? tt + N.of_nat k)%N then LoopTimeout
    else LoopBreak lr.
Proof.
  revert tt. induction k as [|k IH]; intros tt; [done|].
  cbn [repeat app select_loop]. rewrite IH, Nat2N.inj_succ.
  destruct (N.leb_spec T (tt + 1)), (N.leb_spec 1 (N.succ (N.of_nat k))),
    (N.leb_spec 1 (N.of_nat k)), (N.leb_spec T (tt + 1 + N.of_nat k)),
    (N.leb_spec T (tt + N.succ (N.of_nat k))); simpl; try done; lia.
Qed.

(** C10: when the throttled stream ends before yielding any item
    (after [k] one-second ticks), [stream_model_result] is an error, not
    a success: "Server returned empty response" when the end is observed
    before the tick budget runs out, "Stream is timeout" otherwise; on
    either error the reply handling stashes the user message in the
    pending slot, shows the retry prompt and leaves the system slot and
    the history pool untouched. *)
Theorem empty_stream_is_error (estimate_tokens : string -> Z) (T : N) (k : nat)
    (rest : list Race) (prompt_tokens : Z) (s : Session) (user_msg : Message)
    (fallback_edit_ok : bool) :
  stream_model_result estimate_tokens T prompt_tokens
      (repeat RTick k ++ RStream None :: rest) =
    SMDone (inr (if (1 <=? N.of_nat k)%N && (T <=? N.of_nat k)%N
               then StreamTimeout else EmptyResponse)) /\
  (forall e, handle_result s user_msg fallback_edit_ok (inr e) =
     (mkSession (system_message s) (history_messages s) (Some user_msg)
        (conversation_limit s), ReplyRetryPrompt)).
Proof.
  split.
  - unfold stream_model_result. rewrite select_loop_ticks_then_end.
    replace (0 + N.of_nat k)%N with (N.of_nat k) by lia.
    by destruct ((1 <=? N.of_nat k)%N && (T <=? N.of_nat k)%N).
  - intros e. reflexivity.
Qed.

End OrchestratorProofs.

(* ================================================================== *)
(** * Proofs: markdown.rs *)
(* ================================================================== *)

Module MarkdownProofs.
Import Markdown.
Local Open Scope Z_scope.

(** A step that does not panic, and whose value satisfies [P]. *)
Definition res_ok {A} (P : A -> Prop) (r : res A) : Prop :=
  match r with ROk a => P a | RErr _ => True | RPanic => False end.

Lemma res_ok_bind {A B} (P : A -> Prop) (Q : B -> Prop) (m : res A) (k : A -> res B) :
  res_ok P m -> (forall a, P a -> res_ok Q (k a)) -> res_ok Q (res_bind m k).
Proof. destruct m; simpl; auto. Qed.

(** The content ends with at least [prev_block_margin] newlines. *)
Definition margin_ok (st : ParseState) : Prop :=
  exists pre, content (parsed_string st) = pre ++ repeat NEWLINE (prev_block_margin st).

(** Every open entity starts at or before the current offset. *)
Definition starts_ok (st : ParseState) : Prop :=
  Forall (fun e => (estart e <= utf16_offset st)%nat) (entity_stack st).

(** Every open numbered list can count [k] more items without
    overflowing its [u64] counter. *)
Definition numbers_ok (st : ParseState) (k : nat) : Prop :=
  Forall (fun e => forall n, ekind e = EList (Some n) -> (n + N.of_nat k < 2 ^ 64)%N)
    (entity_stack st).

Definition inv (st : ParseState) (k : nat) : Prop :=
  margin_ok st /\ starts_ok st /\ numbers_ok st k.

Lemma inv_weaken st k : inv st (S k) -> inv st k.
Proof.
  intros (Hm & Hs & Hn). split_and!; [done|done|].
  eapply Forall_impl; [|exact Hn]. intros e He n Hk. specialize (He n Hk). lia.
Qed.

Lemma push_str_inv st s k : inv st k -> inv (push_str st s) k.
Proof.
  intros (Hm & Hs & Hn). split_and!.
  - exists (content (parsed_string st) ++ s). simpl. by rewrite app_nil_r.
  - eapply Forall_impl; [|exact Hs]. simpl. intros e He. lia.
  - exact Hn.
Qed.

Lemma push_block_inv st m k : inv st k -> inv (push_block st m) k.
Proof.
  intros Hi. unfold push_block.
  destruct (Nat.leb_spec m (prev_block_margin st)) as [Hle|Hlt]; [done|].
  destruct Hi as ([pre Hm] & Hs & Hn). split_and!.
  - exists pre. simpl. rewrite Hm, <- app_assoc, <- repeat_app.
    do 2 f_equal. lia.
  - eapply Forall_impl; [|exact Hs]. simpl. intros e He. lia.
  - exact Hn.
Qed.

Lemma push_entity_inv st e k : inv st k -> inv (push_entity st e) k.
Proof. intros (Hm & Hs & Hn). done. Qed.

Lemma set_stack_pop_inv st e stk k :
  entity_stack st = e :: stk -> inv st k -> inv (set_stack st stk) k.
Proof.
  intros Hst (Hm & Hs & Hn). unfold starts_ok, numbers_ok in *.
  rewrite Hst in Hs, Hn. apply list.Forall_cons in Hs as [_ Hs].
  apply list.Forall_cons in Hn as [_ Hn]. done.
Qed.

Lemma ends_with_newline_margin st :
  ends_with_newline (content (parsed_string st)) = true -> margin_ok (set_margin st 1).
Proof.
  unfold ends_with_newline. destruct (list.last _) as [c|] eqn:Hl; [|done].
  intros Hc. apply bool_decide_eq_true in Hc. subst c.
  apply last_Some in Hl as [pre Hpre]. exists pre. exact Hpre.
Qed.

Lemma pop_span_ok st accept k :
  inv st k -> res_ok (fun st' => inv st' k) (pop_span st accept).
Proof.
  intros Hi. unfold pop_span.
  destruct (entity_stack st) as [|[ek s] stk] eqn:Hst; [done|].
  destruct (accept ek) as [mk|]; [|done].
  assert (Hs : (s <= utf16_offset st)%nat).
  { destruct Hi as (_ & Hs & _). unfold starts_ok in Hs. rewrite Hst in Hs.
    by apply list.Forall_cons in Hs as [Hs _]. }
  unfold usize_sub. destruct (Nat.leb_spec s (utf16_offset st)); [|lia]. simpl.
  apply push_entity_inv. eapply set_stack_pop_inv; [exact Hst|exact Hi].
Qed.

Lemma inv_open st ek k :
  inv st k -> (forall n, ek = EList (Some n) -> (n + N.of_nat k < 2 ^ 64)%N) ->
  inv (set_stack st (mkEntity ek (utf16_offset st) :: entity_stack st)) k.
Proof.
  intros (Hm & Hs & Hn) Hek. split_and!.
  - exact Hm.
  - constructor; [simpl; lia|exact Hs].
  - constructor; [exact Hek|exact Hn].
Qed.

Lemma inv_set_margin_1 st k :
  ends_with_newline (content (parsed_string st)) = true -> inv st k -> inv (set_margin st 1) k.
Proof. intros He (Hm & Hs & Hn). split_and!; [by apply ends_with_newline_margin|done|done]. Qed.

Section Steps.
Variable url_parses : str -> bool.

Lemma start_ok st tag k :
  inv st (S k) ->
  (forall n, tag = List (Some n) -> (n + N.of_nat (S k) < 2 ^ 64)%N) ->
  res_ok (fun st' => inv st' k) (start url_parses st tag).
Proof.
  intros Hi Hl. pose proof (inv_weaken _ _ Hi) as Hk.
  destruct tag as [| level | lang | first | | | | | url | url]; simpl.
  - exact Hk.
  - by apply push_str_inv.
  - apply inv_open; [exact Hk|done].
  - apply inv_open; [exact Hk|]. intros n [= ->]. specialize (Hl n eq_refl). lia.
  - destruct (entity_stack st) as [|[[mk|[n|]] s] stk]; simpl; try done;
      by apply push_str_inv.
  - apply inv_open; [exact Hk|done].
  - apply inv_open; [exact Hk|done].
  - apply inv_open; [exact Hk|done].
  - destruct (url_parses url); simpl; [apply inv_open; [exact Hk|done]|done].
  - destruct (url_parses url); simpl; [apply inv_open; [exact Hk|done]|done].
Qed.

Lemma end_ok st tag k :
  inv st (S k) -> res_ok (fun st' => inv st' k) (end_ st tag).
Proof.
  intros Hi. pose proof (inv_weaken _ _ Hi) as Hk.
  destruct tag as [| level | lang | first | | | | | url | url]; simpl.
  - by apply push_block_inv.
  - by apply push_block_inv.
  - apply res_ok_bind with (P := fun st' => inv st' k); [by apply pop_span_ok|].
    intros a Ha. simpl. apply push_block_inv.
    destruct (ends_with_newline _) eqn:He; [by apply inv_set_margin_1|exact Ha].
  - destruct (entity_stack st) as [|[[mk|start0] s] stk] eqn:Hst; simpl; try done.
    apply push_block_inv. eapply set_stack_pop_inv; [exact Hst|exact Hk].
  - destruct (entity_stack st) as [|[[mk|[n|]] s] stk] eqn:Hst; simpl; try done.
    + destruct Hi as (Hm & Hs & Hn). unfold numbers_ok, starts_ok in Hn, Hs.
      rewrite Hst in Hn, Hs.
      apply list.Forall_cons in Hn as [Hn0 Hn]. apply list.Forall_cons in Hs as [Hs0 Hs].
      specialize (Hn0 n eq_refl). simpl in Hn0.
      unfold u64_incr. destruct (N.ltb_spec (n + 1) (2 ^ 64)); [|lia]. simpl.
      apply push_block_inv. split_and!.
      * exact Hm.
      * constructor; [exact Hs0|exact Hs].
      * constructor.
        -- simpl. intros n' [= <-]. lia.
        -- eapply Forall_impl; [|exact Hn]. intros e He n' Hn'. specialize (He n' Hn'). lia.
    + by apply push_block_inv.
  - by apply pop_span_ok.
  - by apply pop_span_ok.
  - by apply pop_span_ok.
  - by apply pop_span_ok.
  - by apply pop_span_ok.
Qed.

Lemma next_state_ok st ev k :
  inv st (S k) ->
  (forall n, ev = Start (List (Some n)) -> (n + N.of_nat (S k) < 2 ^ 64)%N) ->
  res_ok (fun st' => inv st' k) (next_state url_parses st ev).
Proof.
  intros Hi Hl. destruct ev as [tag|tag|text|text|]; simpl.
  - apply start_ok; [exact Hi|]. intros n ->. by apply Hl.
  - by apply end_ok.
  - apply push_str_inv. by apply inv_weaken.
  - unfold code, usize_sub. simpl.
    destruct (Nat.leb_spec (utf16_offset st) (utf16_offset st + utf16_len text)); [|lia].
    simpl. apply push_entity_inv, push_str_inv. by apply inv_weaken.
  - apply push_str_inv. by apply inv_weaken.
Qed.

Lemma event_of_cmark_ok e :
  res_ok (fun ev => forall n, ev = Start (List (Some n)) -> e = CStart (CList (Some n)))
    (event_of_cmark e).
Proof. destruct e as [t|t| | | | | | |]; try destruct t; simpl; first [exact I | intros; congruence]. Qed.

Lemma walk_ok es st :
  inv st (Datatypes.length es) ->
  (forall n, CStart (CList (Some n)) ∈ es -> (n + N.of_nat (Datatypes.length es) < 2 ^ 64)%N) ->
  res_ok margin_ok (walk url_parses st es).
Proof.
  revert st. induction es as [|e es IH]; intros st Hi Hl; simpl.
  - by destruct Hi.
  - apply res_ok_bind with (1 := event_of_cmark_ok e). intros ev Hev.
    apply res_ok_bind with (P := fun st' => inv st' (Datatypes.length es)).
    + apply next_state_ok; [exact Hi|]. intros n Hn. apply Hl.
      rewrite (Hev n Hn). apply elem_of_cons; by left.
    + intros st' Hst'. apply IH; [exact Hst'|]. intros n Hn.
      assert (H1 := Hl n (proj2 (elem_of_cons _ _ _) (or_intror Hn))). simpl in H1. lia.
Qed.

End Steps.

Lemma utf8_len_app s1 s2 : utf8_len (s1 ++ s2) = (utf8_len s1 + utf8_len s2)%nat.
Proof. unfold utf8_len, fmap. induction s1 as [|c s1 IH]; simpl in *; lia. Qed.

Lemma utf8_len_newlines m : utf8_len (repeat NEWLINE m) = m.
Proof. unfold utf8_len, fmap. induction m as [|m IH]; simpl in *; lia. Qed.

Lemma utf8_width_pos c : (1 <= utf8_width c)%nat.
Proof. unfold utf8_width. repeat case_match; lia. Qed.

Lemma utf8_len_cons c s : utf8_len (c :: s) = (utf8_width c + utf8_len s)%nat.
Proof. reflexivity. Qed.

Lemma prefix_bytes_app pre s : prefix_bytes (utf8_len pre) (pre ++ s) = ROk pre.
Proof.
  induction pre as [|c pre IH].
  - by destruct s.
  - pose proof (utf8_width_pos c). rewrite utf8_len_cons. cbn [app prefix_bytes].
    destruct (Nat.eqb_spec (utf8_width c + utf8_len pre) 0); [lia|].
    destruct (Nat.leb_spec (utf8_width c) (utf8_width c + utf8_len pre)); [|lia].
    replace (utf8_width c + utf8_len pre - utf8_width c)%nat with (utf8_len pre) by lia.
    by rewrite IH.
Qed.

(** [close] does not panic when the trailing margin it trims is there. *)
Lemma close_ok st : margin_ok st -> exists ps, close st = ROk ps.
Proof.
  intros [pre Hm]. unfold close, usize_sub. rewrite Hm, utf8_len_app, utf8_len_newlines.
  destruct (Nat.leb_spec (prev_block_margin st) (utf8_len pre + prev_block_margin st));
    [|lia].
  simpl. replace (utf8_len pre + prev_block_margin st - prev_block_margin st)%nat
    with (utf8_len pre) by lia.
  unfold truncate. case_match; simpl; [by eexists|]. rewrite prefix_bytes_app. by eexists.
Qed.

Lemma inv_state_new k : inv state_new k.
Proof. split_and!; [by exists []|constructor|constructor]. Qed.

(** An event walk meeting a link or image whose URL does not parse
    never finishes with [Ok]. *)
Lemma walk_bad_url url_parses es u st :
  CStart (CLink u) ∈ es \/ CStart (CImage u) ∈ es -> url_parses u = false ->
  match walk url_parses st es with ROk _ => False | _ => True end.
Proof.
  intros Hin Hu. revert st. induction es as [|e es IH]; intros st.
  - destruct Hin as [Hin|Hin]; by apply elem_of_nil in Hin.
  - assert ((CStart (CLink u) = e \/ CStart (CImage u) = e) \/
            (CStart (CLink u) ∈ es \/ CStart (CImage u) ∈ es)) as [[<- | <-]|Hes].
    { destruct Hin as [Hin|Hin]; apply elem_of_cons in Hin as [Hin|Hin]; tauto. }
    + simpl. by rewrite Hu.
    + simpl. by rewrite Hu.
    + simpl. destruct (event_of_cmark e) as [ev| |]; simpl; [|done|done].
      destruct (next_state url_parses st ev) as [st'| |]; simpl; [|done|done].
      by apply IH.
Qed.

(** Claim C4: [parse] is total. For the event sequence of any input, in
    which every ordered list's start number leaves room to count all the
    events (pulldown-cmark reads at most nine digits), [parse] returns a
    [ParsedString] without panicking; whenever the event walk ends in
    [Err] the result is the input verbatim with no entities, and this is
    the case as soon as a link or image URL does not parse. *)
Theorem parse_total_and_fallback (url_parses : str -> bool) (input : str)
    (events : list CmarkEvent)
    (Hnum : forall n, CStart (CList (Some n)) ∈ events ->
            (n + N.of_nat (Datatypes.length events) < 2 ^ 64)%N) :
  (exists ps, parse url_parses input events = ROk ps) /\
  (forall e, walk url_parses state_new events = RErr e ->
             parse url_parses input events = ROk (with_str input)) /\
  (forall u, CStart (CLink u) ∈ events \/ CStart (CImage u) ∈ events ->
             url_parses u = false ->
             parse url_parses input events = ROk (with_str input)).
Proof.
  pose proof (walk_ok url_parses events state_new (inv_state_new _) Hnum) as Hw.
  unfold parse. split_and!.
  - destruct (walk url_parses state_new events) as [st| |]; simpl in Hw; [|by eexists|done].
    by apply close_ok.
  - intros e ->. done.
  - intros u Hin Hu. pose proof (walk_bad_url url_parses events u state_new Hin Hu) as Hb.
    destruct (walk url_parses state_new events); done.
Qed.

(** Claim C5: a fenced code block at the end of the input, whose text
    ends in a newline, keeps a [Pre] span over that newline while [close]
    trims it from the content: for ["```\nx\n```"] the content is ["x"]
    (one UTF-16 unit) and the span covers offsets 0 to 2. *)
Theorem parse_code_block_span_exceeds_content (url_parses : str -> bool) :
  parse url_parses [96; 96; 96; 10; 120; 10; 96; 96; 96]
    [CStart (CCodeBlockFenced []); CText [120; 10]; CEnd (CCodeBlockFenced [])]
  = ROk (mkPS [120] [mkME (Pre (Some [])) 0 2]) /\
  (utf16_len [120%Z] < 0 + 2)%nat.
Proof. split; [vm_compute; reflexivity|vm_compute; lia]. Qed.

(** Witness of C4: a paragraph holding a link whose URL is rejected. *)
Lemma parse_total_and_fallback_witness :
  (forall n, CStart (CList (Some n)) ∈
     [CStart CParagraph; CStart (CLink [120]); CText [97]; CEnd (CLink [120]);
      CEnd CParagraph] ->
     (n + N.of_nat 5 < 2 ^ 64)%N) /\
  parse (fun _ => false) [91; 97; 93; 40; 120; 41]
    [CStart CParagraph; CStart (CLink [120]); CText [97]; CEnd (CLink [120]);
     CEnd CParagraph]
  = ROk (with_str [91; 97; 93; 40; 120; 41]).
Proof.
  assert (Hnum : forall n, CStart (CList (Some n)) ∈
     [CStart CParagraph; CStart (CLink [120]); CText [97]; CEnd (CLink [120]);
      CEnd CParagraph] ->
     (n + N.of_nat 5 < 2 ^ 64)%N).
  { intros n Hin.
    repeat (apply elem_of_cons in Hin as [Hin|Hin]; [discriminate Hin|]).
    destruct (proj1 (elem_of_nil _) Hin). }
  split; [exact Hnum|].
  apply (proj2 (proj2 (parse_total_and_fallback (fun _ => false) [91; 97; 93; 40; 120; 41]
    [CStart CParagraph; CStart (CLink [120]); CText [97]; CEnd (CLink [120]);
     CEnd CParagraph] Hnum)) [120]).
  - left. apply elem_of_cons. right. apply elem_of_cons. by left.
  - reflexivity.
Defined.

End MarkdownProofs.

(* ================================================================== *)
(** * Further properties: session.rs *)
(* ================================================================== *)

Module SessionExtra.
Import Session SessionProofs.

Lemma keep_limit s :
  (1 <= conversation_limit s)%N ->
  Nat.max 1 (N.to_nat (conversation_limit s)) = N.to_nat (conversation_limit s).
Proof. lia. Qed.

Lemma add_nonsys_window s l h :
  (1 <= conversation_limit s)%N ->
  pool_repr (history_messages s) l ->
  (length l <= N.to_nat (conversation_limit s))%nat ->
  nonsys h = true -> id h ∉ id <$> l ->
  pool_repr (history_messages (add_history_message s h))
    (lastn (N.to_nat (conversation_limit s)) (l ++ [h])) /\
  system_message (add_history_message s h) = system_message s /\
  pending_message (add_history_message s h) = pending_message s /\
  conversation_limit (add_history_message s h) = conversation_limit s.
Proof.
  intros H1 Hr Hlen Hn Hni. rewrite <- (keep_limit s H1).
  apply add_nonsys_keep; [done| |done|done]. rewrite (keep_limit s H1). done.
Qed.

Lemma add_all_window hs s l :
  (1 <= conversation_limit s)%N ->
  pool_repr (history_messages s) l ->
  (length l <= N.to_nat (conversation_limit s))%nat ->
  NoDup (id <$> (l ++ filter (fun h => nonsys h = true) hs)) ->
  pool_repr (history_messages (add_all s hs))
    (lastn (N.to_nat (conversation_limit s)) (l ++ filter (fun h => nonsys h = true) hs)) /\
  system_message (add_all s hs) = last_system (system_message s) hs.
Proof.
  intros H1 Hr Hlen Hnd. rewrite <- (keep_limit s H1).
  apply add_all_keep; [done| |done]. rewrite (keep_limit s H1). done.
Qed.

(** [get_history_messages] after a run of insertions: the last system
    message, if any, then the last [conversation_limit] non-system
    entries in insertion order (the older ones are evicted). *)
Theorem get_history_messages_window (s : Session) (l hs : list HistoryMessage) :
  (1 <= conversation_limit s)%N ->
  pool_repr (history_messages s) l ->
  (length l <= N.to_nat (conversation_limit s))%nat ->
  NoDup (id <$> (l ++ filter (fun h => nonsys h = true) hs)) ->
  get_history_messages (add_all s hs) =
    from_option (fun m => [m]) [] (last_system (system_message s) hs) ++
    (message <$> lastn (N.to_nat (conversation_limit s))
                 (l ++ filter (fun h => nonsys h = true) hs)).
Proof.
  intros H1 Hr Hlen Hnd.
  destruct (add_all_window hs s l H1 Hr Hlen Hnd) as [Hk Hs].
  unfold get_history_messages. rewrite (pool_repr_iter _ _ Hk), Hs, map_as_fmap.
  by destruct (last_system _ _).
Qed.

Lemma get_history_messages_window_witness :
  let u i := mkHistoryMessage i (mkMessage User "q") in
  let sys := mkHistoryMessage 9 (mkMessage System "be brief") in
  get_history_messages (add_all (new_session 2) [u 1; sys; u 2; u 3]) =
    [mkMessage System "be brief"; mkMessage User "q"; mkMessage User "q"] /\
  get_history_messages (add_all (new_session 2) [u 1; sys; u 2; u 3]) =
    from_option (fun m => [m]) [] (last_system None [u 1; sys; u 2; u 3]) ++
    (message <$> lastn 2 ([] ++ filter (fun h => nonsys h = true) [u 1; sys; u 2; u 3])).
Proof.
  split; [reflexivity|].
  apply (get_history_messages_window (new_session 2) [] [mkHistoryMessage 1 (mkMessage User "q");
    mkHistoryMessage 9 (mkMessage System "be brief"); mkHistoryMessage 2 (mkMessage User "q");
    mkHistoryMessage 3 (mkMessage User "q")]).
  - simpl. lia.
  - split_and!; [reflexivity|constructor|reflexivity].
  - simpl. lia.
  - apply (bool_decide_unpack (NoDup [1; 2; 3])). vm_compute. reflexivity.
Defined.

(** A non-system entry can be looked up by its id right after it is
    added (the "Show Raw Contents" lookup), whatever the limit; when the
    pool was full, the entry evicted from the front no longer resolves. *)
Theorem add_history_message_lookup (s : Session) (h : HistoryMessage) :
  nonsys h = true ->
  get_history_message (add_history_message s h) (id h) = Some (message h) /\
  (forall i rest, deque (history_messages s) = i :: rest ->
     (conversation_limit s <= N.of_nat (pool_len (history_messages s)))%N ->
     i <> id h ->
     get_history_message (add_history_message s h) i = None).
Proof.
  intros Hn. unfold nonsys in Hn. apply negb_true_iff in Hn.
  unfold add_history_message, get_history_message, get_message. rewrite Hn. simpl.
  split.
  - by rewrite lookup_insert_eq.
  - intros i rest Hd Hle Hne.
    destruct (N.leb_spec (conversation_limit s) (N.of_nat (pool_len (history_messages s))));
      [|lia].
    unfold pop_message. rewrite Hd. simpl.
    rewrite lookup_insert_ne by congruence. by rewrite lookup_delete_eq.
Qed.

Lemma add_history_message_lookup_witness :
  let s := add_all (new_session 1) [mkHistoryMessage 1 (mkMessage User "a")] in
  let h := mkHistoryMessage 2 (mkMessage Assistant "b") in
  nonsys h = true /\
  get_history_message (add_history_message s h) 2 = Some (mkMessage Assistant "b") /\
  get_history_message (add_history_message s h) 1 = None.
Proof.
  assert (Hn : nonsys (mkHistoryMessage 2 (mkMessage Assistant "b")) = true) by reflexivity.
  destruct (add_history_message_lookup
    (add_all (new_session 1) [mkHistoryMessage 1 (mkMessage User "a")])
    (mkHistoryMessage 2 (mkMessage Assistant "b")) Hn) as [H1 H2].
  split; [exact Hn|]. split; [exact H1|].
  apply (H2 1 []); [reflexivity|apply N.leb_le; vm_compute; reflexivity|discriminate].
Defined.

(** [reset] forgets the system message, the history and the pending
    message, but not the id counter: the next prepared id continues after
    the last one, and a message added afterwards is the only one listed. *)
Theorem reset_spec (s : Session) (m : Message) (h : HistoryMessage) :
  nonsys h = true ->
  get_history_messages (reset s) = [] /\
  (forall i, get_history_message (reset s) i = None) /\
  pending_message (reset s) = None /\
  conversation_limit (reset s) = conversation_limit s /\
  id (fst (prepare_history_message (reset s) m)) =
    wrap_i64 (current_id (history_messages s) + 1) /\
  get_history_messages (add_history_message (reset s) h) = [message h].
Proof.
  intros Hn. unfold nonsys in Hn. apply negb_true_iff in Hn.
  split_and!; try reflexivity.
  unfold add_history_message, get_history_messages. rewrite Hn. simpl.
  destruct (conversation_limit s <=? N.of_nat (pool_len (pool_clear (history_messages s))))%N;
    unfold pool_iter; simpl;
    by rewrite lookup_insert_eq.
Qed.

Lemma reset_spec_witness :
  let s := add_all (new_session 5) [mkHistoryMessage 7 (mkMessage User "a")] in
  nonsys (mkHistoryMessage 8 (mkMessage User "b")) = true /\
  get_history_messages
    (add_history_message (reset s) (mkHistoryMessage 8 (mkMessage User "b")))
  = [mkMessage User "b"].
Proof.
  assert (Hn : nonsys (mkHistoryMessage 8 (mkMessage User "b")) = true) by reflexivity.
  split; [exact Hn|].
  exact (proj2 (proj2 (proj2 (proj2 (proj2 (reset_spec
    (add_all (new_session 5) [mkHistoryMessage 7 (mkMessage User "a")])
    (mkMessage User "b") _ Hn)))))).
Defined.

End SessionExtra.

(* ================================================================== *)
(** * Further properties: session_mgr.rs *)
(* ================================================================== *)

Module SessionMgrExtra.
Import Session SessionMgr.

Lemma with_mut_session_other {R} mgr k k' (f : Session -> R * Session) :
  k <> k' -> sessions (snd (with_mut_session mgr k f)) !! k' = sessions mgr !! k'.
Proof.
  intros Hne. unfold with_mut_session. destruct (f _) as [r s']. simpl.
  by rewrite lookup_insert_ne.
Qed.

Lemma with_mut_session_same {R} mgr k (f : Session -> R * Session) :
  sessions (snd (with_mut_session mgr k f)) !! k =
    Some (snd (f (default (new_session (config_limit mgr)) (sessions mgr !! k)))).
Proof.
  unfold with_mut_session. destruct (f _) as [r s'] eqn:E. simpl.
  by rewrite lookup_insert_eq.
Qed.

Lemma swap_session_fst mgr k msg :
  fst (swap_session_pending_message mgr k msg) =
    pending_message (default (new_session (config_limit mgr)) (sessions mgr !! k)).
Proof. unfold swap_session_pending_message, with_mut_session. by destruct msg. Qed.

Lemma swap_session_lookup mgr k msg :
  sessions (snd (swap_session_pending_message mgr k msg)) !! k =
    Some (snd (swap_pending_message
                 (default (new_session (config_limit mgr)) (sessions mgr !! k)) msg)).
Proof. apply with_mut_session_same. Qed.

(** Sessions are per chat. A message stashed for a retry in chat [k] is
    handed back once, to chat [k] only: a retry in another chat gets what
    that chat had pending before, and its history is unchanged. A chat
    never seen has an empty history, and after [reset_session] a chat's
    history is empty. *)
Theorem pending_message_per_chat (mgr : SessionManager) (k k' : string) (m : Message) :
  k <> k' ->
  let mgr1 := snd (swap_session_pending_message mgr k (Some m)) in
  fst (swap_session_pending_message mgr1 k None) = Some m /\
  fst (swap_session_pending_message
         (snd (swap_session_pending_message mgr1 k None)) k None) = None /\
  fst (swap_session_pending_message mgr1 k' None) =
    fst (swap_session_pending_message mgr k' None) /\
  SessionMgr.get_history_messages mgr1 k' = SessionMgr.get_history_messages mgr k' /\
  (sessions mgr !! k = None -> SessionMgr.get_history_messages mgr k = []) /\
  SessionMgr.get_history_messages (reset_session mgr k) k = [].
Proof.
  intros Hne mgr1. split_and!.
  - rewrite swap_session_fst. unfold mgr1. by rewrite swap_session_lookup.
  - rewrite swap_session_fst, swap_session_lookup. reflexivity.
  - rewrite !swap_session_fst. unfold mgr1, swap_session_pending_message.
    by rewrite with_mut_session_other.
  - unfold SessionMgr.get_history_messages, mgr1, swap_session_pending_message.
    by rewrite with_mut_session_other.
  - intros Hk. unfold SessionMgr.get_history_messages. by rewrite Hk.
  - unfold SessionMgr.get_history_messages, reset_session.
    rewrite with_mut_session_same. reflexivity.
Qed.

Lemma pending_message_per_chat_witness :
  ("1"%string <> "2"%string) /\
  (let mgr1 := snd (swap_session_pending_message (sm_new 20) "1" (Some (mkMessage User "q"))) in
   (fst (swap_session_pending_message mgr1 "1" None) = Some (mkMessage User "q")) /\
   (fst (swap_session_pending_message mgr1 "2" None) = None)).
Proof.
  assert (Hne : "1"%string <> "2"%string) by discriminate.
  split; [exact Hne|].
  destruct (pending_message_per_chat (sm_new 20) "1" "2" (mkMessage User "q") Hne)
    as (H1 & _ & H3 & _).
  split; [exact H1|]. rewrite H3. reflexivity.
Defined.

End SessionMgrExtra.

(* ================================================================== *)
(** * Further properties: stream_ext.rs *)
(* ================================================================== *)

Module ThrottleExtra.
Import Throttle ThrottleProofs.

Section Extra.
Context {Item : Type}.

(** Emissions still allowed without an elapsed sleep: one while no
    [Sleep] is armed, one while the inner stream may still yield or a
    final buffer waits. *)
Definition allowance (tb : ThrottleBuffer Item) : nat :=
  (if active_sleep tb then 0 else 1) +
  (if done tb then (if buffer tb then 1 else 0) else 1).

(** The number of polls at which the armed sleep had elapsed. *)
Fixpoint elapsed (ts : list bool) : nat :=
  match ts with [] => 0 | t :: ts' => (if t then 1 else 0) + elapsed ts' end.

Lemma poll_next_allowance (tb : ThrottleBuffer Item) t :
  (length (emitted [fst (poll_next tb t)]) + allowance (snd (poll_next tb t))
     <= (if t then 1 else 0) + allowance tb)%nat.
Proof.
  unfold poll_next, allowance.
  destruct (done tb) eqn:Hd.
  - destruct (buffer tb) eqn:Hb; simpl; rewrite ?Hd, ?Hb; destruct (active_sleep tb), t; simpl; lia.
  - destruct (drain (stream tb) (buffer tb)) as [[st' [b|]] d].
    + destruct (active_sleep tb) eqn:Ha, t; simpl; rewrite ?Ha;
        destruct d; simpl; lia.
    + destruct (active_sleep tb), t, d; simpl; lia.
Qed.

Lemma run_allowance (tb : ThrottleBuffer Item) ts :
  (length (emitted (fst (run tb ts))) <= elapsed ts + allowance tb)%nat.
Proof.
  revert tb. induction ts as [|t ts IH]; intros tb; simpl; [lia|].
  pose proof (poll_next_allowance tb t) as Hp.
  destruct (poll_next tb t) as [o tb1]. specialize (IH tb1).
  destruct (run tb1 ts) as [os tb2]. simpl in *.
  destruct t; simpl; destruct o; simpl in *; lia.
Qed.

(** Throttling: over any run of polls, the buffer emits at most two
    batches more than the number of polls at which the armed sleep had
    elapsed (the first batch, and the final flush after the inner stream
    ended), and every batch it emits is non-empty. *)
Theorem throttle_buffer_emission_bound (st : list (InnerPoll Item)) (ts : list bool) :
  (length (emitted (fst (run (new_tb st) ts))) <= elapsed ts + 2)%nat /\
  (forall b, b ∈ emitted (fst (run (new_tb st) ts)) -> b <> []).
Proof.
  split.
  - apply run_allowance.
  - destruct (run_remaining (new_tb st) ts) as (_ & H & _). apply H.
    unfold buf_ok. simpl. done.
Qed.

(** Once the buffer has reported the end of the stream, it stays
    finished: every later poll reports the end again and changes
    nothing. *)
Theorem throttle_buffer_fused (tb : ThrottleBuffer Item) t ts :
  fst (poll_next tb t) = OEnd ->
  run (snd (poll_next tb t)) ts = (repeat OEnd (length ts), snd (poll_next tb t)).
Proof.
  intros He. destruct (poll_next_end tb t He) as (Hd & Hb & ->).
  induction ts as [|t' ts IH]; [done|]. simpl.
  unfold poll_next at 1. rewrite Hd, Hb. rewrite IH. done.
Qed.

End Extra.

Lemma throttle_buffer_fused_witness :
  fst (poll_next (mkTB (@nil (InnerPoll nat)) None true true) false) = OEnd /\
  run (snd (poll_next (mkTB (@nil (InnerPoll nat)) None true true) false)) [true; false] =
    ([OEnd; OEnd], mkTB [] None true true).
Proof.
  assert (He : fst (poll_next (mkTB (@nil (InnerPoll nat)) None true true) false) = OEnd)
    by reflexivity.
  split; [exact He|]. exact (throttle_buffer_fused _ false [true; false] He).
Defined.

End ThrottleExtra.

(* ================================================================== *)
(** * Further properties: braille.rs *)
(* ================================================================== *)

Module BrailleExtra.
Import Braille BrailleProofs.

Lemma bind_None_all {A B} (k : A -> option B) (m : option A) :
  (forall a, k a = None) -> mbind k m = None.
Proof. intros Hk. destruct m; simpl; [apply Hk|done]. Qed.

Ltac binds_none :=
  repeat first
    [ reflexivity
    | progress cbn [mbind option_bind]
    | apply bind_None_all; intros [? ?]
    | apply bind_None_all; intros ? ].

Lemma mapM_None_head {A B} (f : A -> option B) x xs :
  f x = None -> mapM f (x :: xs) = None.
Proof. intros Hx. simpl. by rewrite Hx. Qed.

Lemma zrange_first n : 1 <= n -> exists r, zrange n = 0 :: r.
Proof.
  intros Hn. unfold zrange. destruct (Z.to_nat n) eqn:E; [lia|]. simpl. by eexists.
Qed.

(** An indicator with no width or no height cannot be drawn: rendering
    it panics for every counter (an index computation underflows, or the
    perimeter is zero and the counter is reduced modulo zero). *)
Theorem string_for_progress_zero_size (w h l c : Z) (lbl : option (list Z)) (cur : Z) :
  0 <= w -> 0 <= h -> (w = 0 \/ h = 0) ->
  string_for_progress (mkBP w h l c lbl) cur = None.
Proof.
  intros Hw Hh Hz. unfold string_for_progress. cbn [width height length label].
  destruct (Z.eq_dec w 0) as [->|Hw0]; destruct (Z.eq_dec h 0) as [->|Hh0];
    [| | |destruct Hz; lia].
  - assert (Hp : pixel_length (mkBP 0 0 l c lbl) = None) by reflexivity.
    rewrite Hp. binds_none.
  - destruct (zrange_first h ltac:(lia)) as [r Hr]. rewrite Hr.
    rewrite (mapM_None_head _ 0 r) by reflexivity. binds_none.
  - destruct (zrange_first w ltac:(lia)) as [r Hr]. rewrite Hr. simpl rev.
    destruct (rev r ++ [0]) as [|x xs] eqn:E;
      [by apply app_eq_nil in E as [_ ?]|].
    rewrite (mapM_None_head _ x xs) by reflexivity. binds_none.
Qed.
Lemma string_for_progress_zero_size_witness :
  (0 <= 0 /\ 0 <= 2 /\ (0 = 0 \/ 2 = 0)) /\
  string_for_progress (mkBP 0 2 3 0 None) 5 = None.
Proof.
  assert (H : 0 <= 0 /\ 0 <= 2 /\ (0 = 0 \/ 2 = 0)) by (split_and!; [lia|lia|left; reflexivity]).
  split; [exact H|].
  destruct H as (H1 & H2 & H3).
  exact (string_for_progress_zero_size 0 2 3 0 None 5 H1 H2 H3).
Defined.

Local Abbreviation llen := Datatypes.length.

(** A Braille pattern character, U+2800 to U+28FF. *)
Definition glyph (c : Z) : Prop := 10240 <= c < 10496.

Lemma glyph_lor c b : glyph c -> 0 <= b < 256 -> glyph (Z.lor c b).
Proof.
  unfold glyph. intros Hc Hb.
  assert (Hs : Z.shiftr (Z.lor c b) 8 = 40).
  { rewrite Z.shiftr_lor, !Z.shiftr_div_pow2 by lia.
    replace (c / 2 ^ 8) with 40 by (apply Z.div_unique with (c - 10240); lia).
    rewrite Z.div_small by lia. reflexivity. }
  rewrite Z.shiftr_div_pow2 in Hs by lia.
  assert (Hn : 0 <= Z.lor c b) by (apply Z.lor_nonneg; lia).
  pose proof (Z.div_mod (Z.lor c b) (2 ^ 8) ltac:(lia)) as Hd.
  pose proof (Z.mod_pos_bound (Z.lor c b) (2 ^ 8) ltac:(lia)). lia.
Qed.

Lemma dot_range i j : 0 <= dot i j < 256.
Proof.
  unfold dot. destruct i as [|[|[|[|[]]]]]; destruct j as [|[|[]]]; simpl; lia.
Qed.

Lemma usize_ok_in z : 0 <= z < 2 ^ 64 -> usize_ok z = Some z.
Proof.
  intros Hz. unfold usize_ok.
  destruct (Z.leb_spec 0 z), (Z.ltb_spec z (2 ^ 64)); simpl; try lia. done.
Qed.

Lemma i32_ok_in z : - 2 ^ 31 <= z < 2 ^ 31 -> i32_ok z = Some z.
Proof.
  intros Hz. unfold i32_ok.
  destruct (Z.leb_spec (- 2 ^ 31) z), (Z.ltb_spec z (2 ^ 31)); simpl; try lia. done.
Qed.

Lemma as_i32_small z : - 2 ^ 31 <= z < 2 ^ 31 -> as_i32 z = z.
Proof. intros Hz. unfold as_i32. rewrite Z.mod_small; lia. Qed.

Lemma visit_bits_ok lo hi oor idx bits : forall chars counter,
  0 <= idx < Z.of_nat (llen chars) -> Forall glyph chars ->
  Forall (fun b => 0 <= b < 256) bits ->
  - 2 ^ 31 <= counter -> counter + Z.of_nat (llen bits) < 2 ^ 31 ->
  exists chars', visit_bits lo hi oor idx bits chars counter =
                   Some (chars', counter + Z.of_nat (llen bits)) /\
    llen chars' = llen chars /\ Forall glyph chars'.
Proof.
  induction bits as [|b bits IH]; intros chars counter Hidx Hg Hb Hlo Hhi.
  - exists chars. simpl. rewrite Z.add_0_r. done.
  - apply list.Forall_cons in Hb as [Hb0 Hb]. cbn [visit_bits llen] in *.
    set (chars1 := if ((lo <=? counter) && (counter <? hi)) || (counter <=? oor)
                   then alter (fun c => Z.lor c b) (Z.to_nat idx) chars else chars).
    assert (Hc1 : (if ((lo <=? counter) && (counter <? hi)) || (counter <=? oor)
                   then or_at idx b chars else Some chars) = Some chars1).
    { unfold chars1, or_at. destruct (_ || _); [|done].
      destruct (Z.leb_spec 0 idx), (Z.ltb_spec idx (Z.of_nat (llen chars))); simpl; try lia.
      done. }
    assert (Hl1 : llen chars1 = llen chars)
      by (unfold chars1; destruct (_ || _); [apply length_alter|done]).
    assert (Hg1 : Forall glyph chars1).
    { unfold chars1. destruct (_ || _); [|done].
      apply Forall_alter; [done|]. intros x _ Hx. by apply glyph_lor. }
    rewrite Hc1. cbn [mbind option_bind].
    unfold add_i32. rewrite i32_ok_in by lia. cbn [mbind option_bind].
    destruct (IH chars1 (counter + 1)) as (chars' & Hv & Hl & Hg');
      [rewrite Hl1; lia|done|done|lia|lia|].
    exists chars'. split; [rewrite Hv; do 2 f_equal; lia|]. split; [lia|done].
Qed.

Lemma visit_cells_ok lo hi oor cells bits : forall chars counter,
  Forall (fun idx => 0 <= idx < Z.of_nat (llen chars)) cells -> Forall glyph chars ->
  Forall (fun b => 0 <= b < 256) bits ->
  - 2 ^ 31 <= counter ->
  counter + Z.of_nat (llen cells) * Z.of_nat (llen bits) < 2 ^ 31 ->
  exists chars', visit_cells lo hi oor cells bits chars counter =
      Some (chars', counter + Z.of_nat (llen cells) * Z.of_nat (llen bits)) /\
    llen chars' = llen chars /\ Forall glyph chars'.
Proof.
  induction cells as [|idx cells IH]; intros chars counter Hc Hg Hb Hlo Hhi.
  - exists chars. simpl. rewrite Z.add_0_r. done.
  - apply list.Forall_cons in Hc as [Hc0 Hc]. cbn [visit_cells llen] in *.
    destruct (visit_bits_ok lo hi oor idx bits chars counter) as (c1 & Hv & Hl1 & Hg1);
      [done|done|done|done|lia|].
    rewrite Hv. cbn [mbind option_bind].
    destruct (IH c1 (counter + Z.of_nat (llen bits))) as (c2 & Hv2 & Hl2 & Hg2);
      [rewrite Hl1; done|done|done|lia|lia|].
    exists c2. split; [rewrite Hv2; do 2 f_equal; lia|]. split; [lia|done].
Qed.

Lemma mapM_fmap_Some_ext {A B} (f : A -> option B) (g : A -> B) (l : list A) :
  (forall x, x ∈ l -> f x = Some (g x)) -> mapM f l = Some (g <$> l).
Proof.
  induction l as [|x l IH]; intros Hf; [done|]. simpl.
  rewrite (Hf x ltac:(by left)). cbn [mbind option_bind].
  rewrite IH; [done|]. intros y Hy. apply Hf. by right.
Qed.

Lemma elem_of_zrange n x : x ∈ zrange n -> 0 <= x < n.
Proof.
  unfold zrange. intros Hx. apply list_elem_of_fmap in Hx as (k & -> & Hk).
  apply list_elem_of_In, in_seq in Hk. lia.
Qed.

Lemma length_zrange n : llen (zrange n) = Z.to_nat n.
Proof. unfold zrange. by rewrite length_fmap, length_seq. Qed.
Lemma elem_of_rev_zrange n x : x ∈ rev (zrange n) -> 0 <= x < n.
Proof. intros Hx. apply elem_of_zrange, list_elem_of_In, in_rev, list_elem_of_In, Hx. Qed.

Lemma render_rows_row w i row rest : forall k,
  1 <= w -> i mod w = 0 -> 0 <= k -> k + Z.of_nat (llen row) = w ->
  render_rows w (i + k) (row ++ rest) =
    (r ← render_rows w (i + w) rest; Some ((if k =? 0 then [10] else []) ++ row ++ r)).
Proof.
  induction row as [|ch row IH]; intros k Hw Hi Hk Hlen; cbn [llen app] in *.
  - replace k with w by lia. destruct (Z.eqb_spec w 0); [lia|].
    destruct (render_rows w (i + w) rest); reflexivity.
  - cbn [render_rows]. unfold rem_usize. destruct (Z.eqb_spec w 0); [lia|].
    cbn [mbind option_bind].
    replace ((i + k) mod w) with k
      by (rewrite Z.add_mod, Hi, Z.add_0_l, Z.mod_mod, Z.mod_small by lia; try reflexivity).
    replace (i + k + 1) with (i + (k + 1)) by lia.
    rewrite (IH (k + 1)) by lia.
    destruct (Z.eqb_spec (k + 1) 0); [lia|].
    destruct (render_rows w (i + w) rest); reflexivity.
Qed.

Lemma render_rows_rows w rows : forall i,
  1 <= w -> i mod w = 0 -> Forall (fun row => llen row = Z.to_nat w) rows ->
  render_rows w i (concat rows) = Some (concat (map (fun row => 10 :: row) rows)).
Proof.
  induction rows as [|row rows IH]; intros i Hw Hi Hr; [reflexivity|].
  apply list.Forall_cons in Hr as [Hr0 Hr]. cbn [concat map].
  rewrite <- (Z.add_0_r i) at 1. rewrite (render_rows_row w i row _ 0) by lia.
  rewrite IH; [reflexivity|lia| |exact Hr].
  rewrite Z.add_mod, Hi, Z.mod_same by lia. reflexivity.
Qed.

Lemma split_rows {A} (P : A -> Prop) wn : forall hn (l : list A),
  llen l = (hn * wn)%nat -> Forall P l ->
  exists rows, llen rows = hn /\
    Forall (fun row => llen row = wn /\ Forall P row) rows /\ l = concat rows.
Proof.
  induction hn as [|hn IH]; intros l Hl Hp.
  - exists []. destruct l; [|simpl in Hl; lia]. split_and!; constructor.
  - destruct (IH (drop wn l)) as (rows & Hn & Hr & Hd);
      [rewrite length_drop; lia|by apply Forall_drop|].
    exists (take wn l :: rows). split_and!.
    + simpl. lia.
    + constructor; [|exact Hr]. split; [rewrite length_take; lia|by apply Forall_take].
    + cbn [concat]. rewrite <- Hd. symmetry. apply take_drop.
Qed.
Lemma pixel_length_ok w h l c lbl :
  1 <= w -> 1 <= h -> (2 * w + 4 * h) * 2 < 2 ^ 64 ->
  pixel_length (mkBP w h l c lbl) = Some ((2 * w + 4 * h - 2) * 2).
Proof.
  intros Hw Hh Hb. unfold pixel_length, mul_usize, add_usize, sub_usize. cbn [width height].
  rewrite usize_ok_in by lia. cbn [mbind option_bind].
  rewrite usize_ok_in by lia. cbn [mbind option_bind].
  rewrite usize_ok_in by lia. cbn [mbind option_bind].
  rewrite usize_ok_in by lia. cbn [mbind option_bind].
  rewrite usize_ok_in by lia. f_equal. lia.
Qed.

Ltac usize_step := unfold mul_usize, add_usize, sub_usize; rewrite usize_ok_in by nia;
  cbn [mbind option_bind].

Ltac bits_ok := repeat (apply Forall_cons; [apply dot_range|]); apply Forall_nil.

(** A frame of a non-empty bar ([width], [height] at least 1, pixel
    length and [length] within [i32]) is rendered as [height] rows, each
    a newline and then [width] Braille pattern characters, followed by
    the label, if any, after a space; the bar never panics there, for any
    [current] value. *)
Theorem string_for_progress_shape (w h l c : Z) lbl cur :
  1 <= w -> 1 <= h -> 0 <= l -> (2 * w + 4 * h) * 2 + l < 2 ^ 31 ->
  exists rows, llen rows = Z.to_nat h /\
    Forall (fun row => llen row = Z.to_nat w /\ Forall glyph row) rows /\
    string_for_progress (mkBP w h l c lbl) cur =
      Some (concat (map (fun row => 10 :: row) rows) ++ from_option (fun s => 32 :: s) [] lbl).
Proof.
  intros Hw Hh Hl Hb.
  unfold string_for_progress. cbn [width height length label].
  assert (En : mul_usize w h = Some (w * h)) by (apply usize_ok_in; nia).
  rewrite En. cbn [mbind option_bind].
  rewrite pixel_length_ok by lia. cbn [mbind option_bind].
  set (pl := (2 * w + 4 * h - 2) * 2).
  assert (Em : rem_usize cur pl = Some (cur mod pl))
    by (unfold rem_usize; destruct (Z.eqb_spec pl 0); [lia|reflexivity]).
  rewrite Em. cbn [mbind option_bind].
  pose proof (Z.mod_pos_bound cur pl ltac:(lia)) as Hmc.
  set (mc := cur mod pl) in *.
  rewrite (as_i32_small mc), (as_i32_small l), (as_i32_small pl) by lia.
  assert (Ehi : add_i32 mc l = Some (mc + l)) by (apply i32_ok_in; lia).
  rewrite Ehi. cbn [mbind option_bind].
  assert (Eo1 : sub_i32 (mc + l) 1 = Some (mc + l - 1)) by (apply i32_ok_in; lia).
  rewrite Eo1. cbn [mbind option_bind].
  assert (Eo2 : sub_i32 (mc + l - 1) pl = Some (mc + l - 1 - pl)) by (apply i32_ok_in; lia).
  rewrite Eo2. cbn [mbind option_bind].
  set (oor := mc + l - 1 - pl). set (hi := mc + l).
  assert (Hn : Z.of_nat (Z.to_nat (w * h)) = w * h) by (rewrite Z2Nat.id; nia).
  (* Top *)
  destruct (visit_cells_ok mc hi oor (zrange w) [dot 0 0; dot 0 1]
              (repeat BLANK (Z.to_nat (w * h))) 0) as (ch1 & E1 & L1 & G1).
  { apply Forall_forall. intros x Hx.
    apply list_elem_of_In, elem_of_zrange in Hx. rewrite repeat_length. nia. }
  { apply Forall_forall. intros x Hx. apply repeat_spec in Hx. subst x.
    unfold glyph, BLANK. lia. }
  { bits_ok. }
  { lia. }
  { rewrite length_zrange. simpl. lia. }
  replace (0 + Z.of_nat (llen (zrange w)) * Z.of_nat (llen [dot 0 0; dot 0 1]))
    with (2 * w) in E1 by (rewrite length_zrange; simpl; lia).
  rewrite repeat_length in L1.
  rewrite E1. cbn [mbind option_bind].
  assert (Ec1 : sub_i32 (2 * w) 1 = Some (2 * w - 1)) by (unfold sub_i32; rewrite i32_ok_in by lia; f_equal; lia).
  rewrite Ec1. cbn [mbind option_bind].
  (* Right *)
  assert (Er : mapM (fun y => t ← mul_usize y w; t ← add_usize t w; sub_usize t 1) (zrange h)
               = Some ((fun y => y * w + w - 1) <$> zrange h)).
  { apply mapM_fmap_Some_ext. intros y Hy. apply elem_of_zrange in Hy.
    unfold mul_usize, add_usize, sub_usize.
    repeat (rewrite usize_ok_in by nia; cbn [mbind option_bind]). reflexivity. }
  rewrite Er. cbn [mbind option_bind].
  destruct (visit_cells_ok mc hi oor ((fun y => y * w + w - 1) <$> zrange h)
              [dot 0 1; dot 1 1; dot 2 1; dot 3 1] ch1 (2 * w - 1)) as (ch2 & E2 & L2 & G2).
  { apply Forall_fmap, Forall_forall. intros y Hy.
    apply list_elem_of_In, elem_of_zrange in Hy. unfold compose. rewrite L1. nia. }
  { exact G1. }
  { bits_ok. }
  { lia. }
  { rewrite length_fmap, length_zrange. simpl. lia. }
  replace (2 * w - 1 + Z.of_nat (llen ((fun y => y * w + w - 1) <$> zrange h))
             * Z.of_nat (llen [dot 0 1; dot 1 1; dot 2 1; dot 3 1]))
    with (2 * w + 4 * h - 1) in E2 by (rewrite length_fmap, length_zrange; simpl; lia).
  rewrite E2. cbn [mbind option_bind].
  assert (Ec2 : sub_i32 (2 * w + 4 * h - 1) 1 = Some (2 * w + 4 * h - 2))
    by (unfold sub_i32; rewrite i32_ok_in by lia; f_equal; lia).
  rewrite Ec2. cbn [mbind option_bind].
  (* Bottom *)
  assert (Eb : mapM (fun x => t ← sub_usize h 1; t ← mul_usize t w; add_usize t x)
                 (rev (zrange w))
               = Some ((fun x => (h - 1) * w + x) <$> rev (zrange w))).
  { apply mapM_fmap_Some_ext. intros x Hx. apply elem_of_rev_zrange in Hx.
    unfold mul_usize, add_usize, sub_usize.
    repeat (rewrite usize_ok_in by nia; cbn [mbind option_bind]). reflexivity. }
  rewrite Eb. cbn [mbind option_bind].
  destruct (visit_cells_ok mc hi oor ((fun x => (h - 1) * w + x) <$> rev (zrange w))
              [dot 3 1; dot 3 0] ch2 (2 * w + 4 * h - 2)) as (ch3 & E3 & L3 & G3).
  { apply Forall_fmap, Forall_forall. intros x Hx.
    apply list_elem_of_In, elem_of_rev_zrange in Hx. unfold compose. rewrite L2, L1. nia. }
  { exact G2. }
  { bits_ok. }
  { lia. }
  { rewrite length_fmap, length_rev, length_zrange. simpl. lia. }
  replace (2 * w + 4 * h - 2 + Z.of_nat (llen ((fun x => (h - 1) * w + x) <$> rev (zrange w)))
             * Z.of_nat (llen [dot 3 1; dot 3 0]))
    with (4 * w + 4 * h - 2) in E3 by (rewrite length_fmap, length_rev, length_zrange; simpl; lia).
  rewrite E3. cbn [mbind option_bind].
  assert (Ec3 : sub_i32 (4 * w + 4 * h - 2) 1 = Some (4 * w + 4 * h - 3))
    by (unfold sub_i32; rewrite i32_ok_in by lia; f_equal; lia).
  rewrite Ec3. cbn [mbind option_bind].
  (* Left *)
  assert (El : mapM (fun y => mul_usize y w) (rev (zrange h))
               = Some ((fun y => y * w) <$> rev (zrange h))).
  { apply mapM_fmap_Some_ext. intros y Hy. apply elem_of_rev_zrange in Hy.
    apply usize_ok_in. nia. }
  rewrite El. cbn [mbind option_bind].
  destruct (visit_cells_ok mc hi oor ((fun y => y * w) <$> rev (zrange h))
              [dot 3 0; dot 2 0; dot 1 0; dot 0 0] ch3 (4 * w + 4 * h - 3))
    as (ch4 & E4 & L4 & G4).
  { apply Forall_fmap, Forall_forall. intros y Hy.
    apply list_elem_of_In, elem_of_rev_zrange in Hy. unfold compose.
    rewrite L3, L2, L1. nia. }
  { exact G3. }
  { bits_ok. }
  { lia. }
  { rewrite length_fmap, length_rev, length_zrange. simpl. lia. }
  replace (4 * w + 4 * h - 3 + Z.of_nat (llen ((fun y => y * w) <$> rev (zrange h)))
             * Z.of_nat (llen [dot 3 0; dot 2 0; dot 1 0; dot 0 0]))
    with (4 * w + 8 * h - 3) in E4 by (rewrite length_fmap, length_rev, length_zrange; simpl; lia).
  rewrite E4. cbn [mbind option_bind].
  assert (Ec4 : sub_i32 (4 * w + 8 * h - 3) 1 = Some pl) by (unfold sub_i32; rewrite i32_ok_in by lia; f_equal; lia).
  rewrite Ec4. cbn [mbind option_bind]. rewrite Z.eqb_refl.
  (* Rows *)
  destruct (split_rows glyph (Z.to_nat w) (Z.to_nat h) ch4) as (rows & Hr & Hrs & Hd);
    [rewrite L4, L3, L2, L1, Z2Nat.inj_mul by lia; lia|exact G4|].
  exists rows. split_and!; [exact Hr|exact Hrs|].
  rewrite Hd, render_rows_rows; [|lia|reflexivity|].
  - destruct lbl; reflexivity.
  - eapply Forall_impl; [|exact Hrs]. intros row [? _]. exact H.
Qed.

Lemma string_for_progress_shape_witness :
  1 <= 2 /\ 1 <= 1 /\ 0 <= 3 /\ (2 * 2 + 4 * 1) * 2 + 3 < 2 ^ 31 /\
  exists rows, llen rows = Z.to_nat 1 /\
    Forall (fun row => llen row = Z.to_nat 2 /\ Forall glyph row) rows /\
    string_for_progress (mkBP 2 1 3 0 (Some [97])) 5 =
      Some (concat (map (fun row => 10 :: row) rows) ++ from_option (fun s => 32 :: s) [] (Some [97])).
Proof.
  split_and!; try lia.
  apply (string_for_progress_shape 2 1 3 0 (Some [97]) 5); lia.
Defined.

End BrailleExtra.


(* ================================================================== *)
(** * More properties: the reply path of mod.rs and openai_client.rs *)
(* ================================================================== *)

Module OrchestratorExtra.
Import Session SessionProofs SessionExtra Orchestrator OpenAIClient.

(** All the delta contents of a response stream, in order. *)
Definition delta_text (chunks : list StreamChunk) : string :=
  foldr String.append "" (omap chunk_content chunks).

(** The buffers the throttled stream yields before it ends, in the order
    the [select!] loop receives them. *)
Fixpoint batches (races : list Race) : list (list ChatModelResult) :=
  match races with
  | [] => []
  | RStream None :: _ => []
  | RStream (Some b) :: rs => b :: batches rs
  | RTick :: rs => batches rs
  end.

Lemma string_append_assoc a b c :
  String.append (String.append a b) c = String.append a (String.append b c).
Proof.
  induction a as [|x a IH]; [reflexivity|].
  change (String x (String.append (String.append a b) c) =
          String x (String.append a (String.append b c))). by rewrite IH.
Qed.

Lemma string_append_empty a : String.append a "" = a.
Proof.
  induction a as [|x a IH]; [reflexivity|].
  change (String x (String.append a "") = String x a). by rewrite IH.
Qed.

Lemma scan_from_length chunks : forall acc, length (scan_from acc chunks) = length chunks.
Proof. induction chunks as [|c cs IH]; intros acc; simpl; [done|by rewrite IH]. Qed.

Lemma scan_from_spec chunks : forall acc k r,
  scan_from acc chunks !! k = Some r ->
  r = mkCMR (String.append (cmr_content acc) (delta_text (take (S k) chunks)))
        (token_usage acc).
Proof.
  induction chunks as [|c cs IH]; intros acc k r Hk; [done|].
  destruct k as [|k]; cbn [scan_from lookup list_lookup] in Hk.
  - injection Hk as <-. unfold scan_step, delta_text. cbn [take omap list_omap].
    destruct (chunk_content c); cbn [foldr];
      rewrite string_append_empty; by destruct acc.
  - apply IH in Hk. rewrite Hk. unfold scan_step, delta_text. cbn [take omap list_omap].
    destruct (chunk_content c); cbn [foldr cmr_content token_usage];
      [by rewrite string_append_assoc|done].
Qed.

Lemma select_loop_break timeout races : forall t lr r,
  select_loop timeout t lr races = LoopBreak r ->
  Forall (fun b => b <> []) (batches races) ->
  r = match list.last (concat (batches races)) with Some x => Some x | None => lr end.
Proof.
  induction races as [|[[b|]|] rs IH]; intros t lr r Hr Hne; cbn [select_loop batches] in *.
  - discriminate.
  - apply list.Forall_cons in Hne as [Hb Hne].
    rewrite (IH _ _ _ Hr Hne). cbn [concat]. rewrite last_app.
    destruct (list.last b) eqn:El; [|by apply last_None in El].
    by destruct (list.last (concat (batches rs))).
  - by injection Hr as <-.
  - destruct (timeout <=? _)%N; [discriminate|]. by apply (IH _ _ _ Hr).
Qed.

Lemma elem_of_lastn {A} (x : A) n l : x ∈ lastn n l -> x ∈ l.
Proof.
  unfold lastn. generalize (length l - n)%nat as j. revert x.
  induction l as [|y l IH]; intros x j Hx; destruct j; simpl in Hx; try done.
  right. by apply (IH _ j).
Qed.

Lemma lastn_app_small {A} n (x y : list A) :
  (length y <= n)%nat -> lastn n (x ++ y) = lastn (n - length y) x ++ y.
Proof.
  intros H. unfold lastn. rewrite length_app, drop_app_le by lia.
  f_equal. f_equal. lia.
Qed.

Lemma pool_repr_ids p l : pool_repr p l -> NoDup (id <$> l).
Proof. by intros (_ & Hnd & _). Qed.
(** The scanned response stream yields one item per chunk of the model's
    stream, errors included: the [k]-th item carries the concatenation of
    the delta contents of chunks [0..k] and a [token_usage] of 0. *)
Theorem request_chat_model_accumulates (chunks : list StreamChunk) :
  length (request_chat_model_stream chunks) = length chunks /\
  forall k r, request_chat_model_stream chunks !! k = Some r ->
    r = mkCMR (delta_text (take (S k) chunks)) 0.
Proof.
  split; [apply scan_from_length|].
  intros k r Hk. apply scan_from_spec in Hk. exact Hk.
Qed.

(** When the [select!] loop ends because the throttled stream ended,
    and the buffers it received (all non-empty) are the scanned stream,
    [stream_model_result] answers with all the delta contents
    concatenated, if the model's stream had at least one chunk (even if
    no chunk carried a content), and with "Server returned empty
    response" only if it had none. The token usage is the [u32] sum of
    the two estimates; when that sum does not fit in [u32] the addition
    panics instead (debug build). *)
Theorem stream_model_result_content (estimate_tokens : string -> Z) (timeout : N)
    (ept : Z) (races : list Race) (chunks : list StreamChunk) :
  (forall t, 0 <= estimate_tokens t < 2 ^ 32) -> 0 <= ept < 2 ^ 32 ->
  Forall (fun b => b <> []) (batches races) ->
  concat (batches races) = request_chat_model_stream chunks ->
  (exists r, select_loop timeout 0 None races = LoopBreak r) ->
  stream_model_result estimate_tokens timeout ept races =
    match chunks with
    | [] => SMDone (inr EmptyResponse)
    | _ :: _ =>
        if estimate_tokens (delta_text chunks) + ept <? 2 ^ 32
        then SMDone (inl (mkCMR (delta_text chunks) (estimate_tokens (delta_text chunks) + ept)))
        else SMPanic
    end.
Proof.
  intros Het Hept Hne Hc [r Hr]. unfold stream_model_result. rewrite Hr.
  apply select_loop_break in Hr; [|exact Hne]. rewrite Hc in Hr.
  destruct chunks as [|c cs] eqn:Ech; [by subst r|].
  rewrite last_lookup in Hr.
  destruct (request_chat_model_stream (c :: cs) !! pred (length (request_chat_model_stream (c :: cs))))
    as [x|] eqn:Ex.
  - pose proof Ex as Hx. apply scan_from_spec in Hx.
    unfold request_chat_model_stream in Hx, Ex. rewrite scan_from_length in Hx.
    rewrite take_ge in Hx by (simpl; lia). subst r x. cbn [cmr_content].
    change (String.append "" (delta_text (c :: cs))) with (delta_text (c :: cs)).
    unfold add_u32. specialize (Het (delta_text (c :: cs))).
    replace (0 <=? _) with true by (symmetry; apply Z.leb_le; lia).
    by destruct (_ <? 2 ^ 32).
  - apply lookup_ge_None in Ex. unfold request_chat_model_stream in Ex.
    rewrite scan_from_length in Ex. simpl in Ex. lia.
Qed.

Lemma stream_model_result_content_witness :
  let est t := Z.min (Z.of_nat (String.length t)) (2 ^ 32 - 1) in
  let races := [RTick; RStream (Some [mkCMR "Hel" 0]); RTick;
                RStream (Some [mkCMR "Hel" 0; mkCMR "Hello" 0]); RStream None] in
  let chunks := [ChunkOk [Some "Hel"]; ChunkErr; ChunkOk [Some "lo"; Some "x"]] in
  ((forall t, 0 <= est t < 2 ^ 32) /\ 0 <= 10 < 2 ^ 32 /\
   Forall (fun b => b <> []) (batches races) /\
   concat (batches races) = request_chat_model_stream chunks /\
   (exists r, select_loop 3 0 None races = LoopBreak r)) /\
  stream_model_result est 3 10 races = SMDone (inl (mkCMR "Hello" 15)) /\
  stream_model_result est 3 (2 ^ 32 - 3) races = SMPanic.
Proof.
  intros est races chunks. subst est races chunks.
  assert (H0 : forall t, 0 <= Z.min (Z.of_nat (String.length t)) (2 ^ 32 - 1) < 2 ^ 32) by lia.
  assert (H0' : 0 <= 10 < 2 ^ 32) by lia.
  assert (H0'' : 0 <= 2 ^ 32 - 3 < 2 ^ 32) by lia.
  assert (H1 : Forall (fun b : list ChatModelResult => b <> [])
    (batches [RTick; RStream (Some [mkCMR "Hel" 0]); RTick;
              RStream (Some [mkCMR "Hel" 0; mkCMR "Hello" 0]); RStream None]))
    by (repeat constructor; discriminate).
  assert (H2 : concat (batches [RTick; RStream (Some [mkCMR "Hel" 0]); RTick;
              RStream (Some [mkCMR "Hel" 0; mkCMR "Hello" 0]); RStream None]) =
    request_chat_model_stream [ChunkOk [Some "Hel"]; ChunkErr; ChunkOk [Some "lo"; Some "x"]])
    by reflexivity.
  assert (H3 : exists r, select_loop 3 0 None [RTick; RStream (Some [mkCMR "Hel" 0]); RTick;
              RStream (Some [mkCMR "Hel" 0; mkCMR "Hello" 0]); RStream None] = LoopBreak r)
    by (eexists; reflexivity).
  split; [exact (conj H0 (conj H0' (conj H1 (conj H2 H3))))|]. split.
  - rewrite (stream_model_result_content
      (fun t => Z.min (Z.of_nat (String.length t)) (2 ^ 32 - 1)) 3 10 _ _ H0 H0' H1 H2 H3).
    reflexivity.
  - rewrite (stream_model_result_content
      (fun t => Z.min (Z.of_nat (String.length t)) (2 ^ 32 - 1)) 3 (2 ^ 32 - 3) _ _ H0 H0'' H1 H2 H3).
    reflexivity.
Defined.

(** A successful answer whose final edit went through: the reply is
    recorded under the id of the "Show Raw Contents" button (prepared
    first, so it is the smaller of the two new ids), and the history then
    lists the system message, the older entries that still fit, the
    user's message and the reply, in this order; the pending slot is left
    as it was. *)
Theorem handle_result_success (s : Session) (l : list HistoryMessage) (u : Message)
    (res : ChatModelResult) :
  (2 <= conversation_limit s)%N ->
  pool_repr (history_messages s) l ->
  (length l <= N.to_nat (conversation_limit s))%nat ->
  role u <> System ->
  Forall (fun h => exists k, 0 <= k < 2 ^ 64 - 2 /\
            id h = wrap_i64 (current_id (history_messages s) - k)) l ->
  snd (handle_result s u true (inl res)) = ReplyAnswer (cmr_content res) /\
  get_history_message (fst (handle_result s u true (inl res)))
    (id (fst (prepare_history_message s (mkMessage Assistant (cmr_content res))))) =
    Some (mkMessage Assistant (cmr_content res)) /\
  get_history_messages (fst (handle_result s u true (inl res))) =
    from_option (fun m => [m]) [] (system_message s) ++
    (message <$> lastn (N.to_nat (conversation_limit s) - 2) l) ++
    [u; mkMessage Assistant (cmr_content res)] /\
  pending_message (fst (handle_result s u true (inl res))) = pending_message s.
Proof.
  intros H2 Hr Hlen Hu Hw.
  set (c := current_id (history_messages s)) in *.
  set (reply := mkMessage Assistant (cmr_content res)).
  set (rh := mkHistoryMessage (wrap_i64 (c + 1)) reply).
  set (uh := mkHistoryMessage (wrap_i64 (wrap_i64 (c + 1) + 1)) u).
  set (s2 := mkSession (system_message s)
               (mkPool (wrap_i64 (wrap_i64 (c + 1) + 1)) (messages (history_messages s))
                  (deque (history_messages s)))
               (pending_message s) (conversation_limit s)).
  assert (E : handle_result s u true (inl res) =
              (add_history_message (add_history_message s2 uh) rh,
               ReplyAnswer (cmr_content res))) by reflexivity.
  rewrite E. cbn [fst snd].
  assert (Hrid : id (fst (prepare_history_message s reply)) = wrap_i64 (c + 1))
    by reflexivity.
  rewrite Hrid.
  set (L := N.to_nat (conversation_limit s)).
  assert (HL2 : (2 <= L)%nat) by (unfold L; lia).
  assert (Hr2 : pool_repr (history_messages s2) l)
    by (destruct Hr as (? & ? & ?); split_and!; assumption).
  assert (Hnu : nonsys uh = true) by (unfold nonsys; simpl; destruct (role u); done).
  assert (Hid_u : wrap_i64 (wrap_i64 (c + 1) + 1) = wrap_i64 (c + 1 + 1))
    by apply wrap_i64_add_idemp.
  assert (Hni_u : id uh ∉ id <$> l).
  { intros Hin. apply list_elem_of_fmap in Hin as (h & Heq & Hh).
    eapply Forall_forall in Hw; [|apply list_elem_of_In, Hh].
    destruct Hw as (k & Hk & Hhk). simpl in Heq. rewrite Hid_u, Hhk in Heq.
    apply (wrap_i64_window_ne (c + 1) (k + 1)); [lia|].
    replace (c + 1 - (k + 1)) with (c - k) by lia. exact Heq. }
  destruct (add_nonsys_window s2 l uh ltac:(simpl; lia) Hr2 Hlen Hnu Hni_u)
    as (Hr3 & Hs3 & Hp3 & Hl3).
  set (s3 := add_history_message s2 uh) in *.
  assert (Hnr : nonsys rh = true) by reflexivity.
  assert (Hni_r : id rh ∉ id <$> lastn (N.to_nat (conversation_limit s2)) (l ++ [uh])).
  { intros Hin. apply list_elem_of_fmap in Hin as (h & Heq & Hh).
    apply elem_of_lastn, elem_of_app in Hh as [Hh|Hh].
    - eapply Forall_forall in Hw; [|apply list_elem_of_In, Hh].
      destruct Hw as (k & Hk & Hhk). simpl in Heq. rewrite Hhk in Heq.
      apply (wrap_i64_window_ne c k); [lia|]. exact Heq.
    - apply list_elem_of_singleton in Hh. subst h. simpl in Heq. rewrite Hid_u in Heq.
      apply (wrap_i64_window_ne (c + 1) 0); [lia|].
      replace (c + 1 - 0) with (c + 1) by lia. symmetry. exact Heq. }
  destruct (add_nonsys_window s3 (lastn (N.to_nat (conversation_limit s2)) (l ++ [uh])) rh
              ltac:(rewrite Hl3; simpl; lia) Hr3
              ltac:(rewrite Hl3; apply lastn_length) Hnr Hni_r)
    as (Hr4 & Hs4 & Hp4 & _).
  rewrite Hl3 in Hr4. cbn [conversation_limit s2] in Hr4. fold L in Hr4.
  rewrite lastn_app_lastn, <- app_assoc in Hr4. cbn [app] in Hr4.
  rewrite (lastn_app_small L l [uh; rh]) in Hr4 by (simpl; lia). cbn [length] in Hr4.
  split_and!.
  - reflexivity.
  - unfold get_history_message, get_message. destruct Hr4 as (_ & Hnd & Hm). rewrite Hm.
    rewrite (elem_of_list_to_map_1 _ (id rh) rh); [reflexivity| |].
    + by rewrite keys_fmap.
    + apply list_elem_of_fmap. exists rh. split; [reflexivity|].
      apply elem_of_app. right. by right; left.
  - unfold get_history_messages. rewrite (pool_repr_iter _ _ Hr4), Hs4, Hs3.
    cbn [system_message s2]. rewrite map_as_fmap, fmap_app.
    by destruct (system_message s).
  - by rewrite Hp4, Hp3.
Qed.

Lemma handle_result_success_witness :
  let sys := mkMessage System "be brief" in
  let s := fst (handle_result (add_all (new_session 3) [mkHistoryMessage 0 sys])
                  (mkMessage User "q1") true (inl (mkCMR "a1" 5))) in
  let l := [mkHistoryMessage 2 (mkMessage User "q1");
            mkHistoryMessage 1 (mkMessage Assistant "a1")] in
  let u := mkMessage User "q2" in
  let res := mkCMR "a2" 7 in
  ((2 <= conversation_limit s)%N /\ pool_repr (history_messages s) l /\
   (length l <= N.to_nat (conversation_limit s))%nat /\
   role u <> System /\
   Forall (fun h => exists k, 0 <= k < 2 ^ 64 - 2 /\
            id h = wrap_i64 (current_id (history_messages s) - k)) l) /\
  (snd (handle_result s u true (inl res)) = ReplyAnswer (cmr_content res) /\
   get_history_message (fst (handle_result s u true (inl res)))
     (id (fst (prepare_history_message s (mkMessage Assistant (cmr_content res))))) =
     Some (mkMessage Assistant (cmr_content res)) /\
   get_history_messages (fst (handle_result s u true (inl res))) =
     from_option (fun m => [m]) [] (system_message s) ++
     (message <$> lastn (N.to_nat (conversation_limit s) - 2) l) ++
     [u; mkMessage Assistant (cmr_content res)] /\
   pending_message (fst (handle_result s u true (inl res))) = pending_message s) /\
  get_history_messages (fst (handle_result s u true (inl res))) =
    [sys; mkMessage Assistant "a1"; u; mkMessage Assistant "a2"].
Proof.
  intros sys s l u res. subst sys s l u res.
  set (s := fst (handle_result
    (add_all (new_session 3) [mkHistoryMessage 0 (mkMessage System "be brief")])
    (mkMessage User "q1") true (inl (mkCMR "a1" 5)))).
  set (l := [mkHistoryMessage 2 (mkMessage User "q1");
             mkHistoryMessage 1 (mkMessage Assistant "a1")]).
  assert (H1 : (2 <= conversation_limit s)%N) by (apply N.leb_le; reflexivity).
  assert (H2 : pool_repr (history_messages s) l).
  { split_and!; [reflexivity| |reflexivity].
    apply (bool_decide_unpack (NoDup [2; 1])). vm_compute. reflexivity. }
  assert (H3 : (length l <= N.to_nat (conversation_limit s))%nat) by (vm_compute; lia).
  assert (H4 : role (mkMessage User "q2") <> System) by discriminate.
  assert (H5 : Forall (fun h => exists k, 0 <= k < 2 ^ 64 - 2 /\
            id h = wrap_i64 (current_id (history_messages s) - k)) l).
  { repeat constructor.
    - exists 0. split; [lia|reflexivity].
    - exists 1. split; [lia|reflexivity]. }
  split; [exact (conj H1 (conj H2 (conj H3 (conj H4 H5))))|]. split.
  - exact (handle_result_success s l (mkMessage User "q2") (mkCMR "a2" 7) H1 H2 H3 H4 H5).
  - reflexivity.
Defined.

(** When the raw fallback edit of a successful answer fails, the turn is
    dropped: the history and every lookup by id are unchanged, the user's
    message is neither recorded nor stashed for "Retry" (the pending slot
    is unchanged), and only the id counter has moved. *)
Theorem handle_result_aborted (s : Session) (u : Message) (res : ChatModelResult) :
  snd (handle_result s u false (inl res)) = ReplyAborted /\
  get_history_messages (fst (handle_result s u false (inl res))) = get_history_messages s /\
  (forall i, get_history_message (fst (handle_result s u false (inl res))) i =
             get_history_message s i) /\
  pending_message (fst (handle_result s u false (inl res))) = pending_message s /\
  system_message (fst (handle_result s u false (inl res))) = system_message s.
Proof. split_and!; reflexivity. Qed.

End OrchestratorExtra.


(* ================================================================== *)
(** * More properties: markdown.rs *)
(* ================================================================== *)

Module MarkdownExtra.
Import Markdown MarkdownProofs.

(** A step whose value, when it is [Ok], satisfies [P]. *)
Definition res_good {A} (P : A -> Prop) (r : res A) : Prop :=
  match r with ROk a => P a | _ => True end.

Lemma res_good_bind {A B} (P : A -> Prop) (Q : B -> Prop) (m : res A) (k : A -> res B) :
  res_good P m -> (forall a, P a -> res_good Q (k a)) -> res_good Q (res_bind m k).
Proof. destruct m; simpl; auto. Qed.

(** The walk's state: the trailing margin is made of newlines and is at
    most [PARAGRAPH_MARGIN], [utf16_offset] is the UTF-16 length of the
    content, open entities start and recorded spans end within it. *)
Definition spans_inv (st : ParseState) : Prop :=
  margin_ok st /\ starts_ok st /\
  utf16_offset st = utf16_len (content (parsed_string st)) /\
  Forall (fun e => (offset e + length e <= utf16_offset st)%nat) (entities (parsed_string st)) /\
  (prev_block_margin st <= 2)%nat.

Lemma utf16_len_app s1 s2 : utf16_len (s1 ++ s2) = (utf16_len s1 + utf16_len s2)%nat.
Proof. unfold utf16_len, fmap. induction s1 as [|c s1 IH]; simpl in *; lia. Qed.

Lemma utf16_len_newlines m : utf16_len (repeat NEWLINE m) = m.
Proof. unfold utf16_len, fmap. induction m as [|m IH]; simpl in *; lia. Qed.

Lemma spans_push_str st s : spans_inv st -> spans_inv (push_str st s).
Proof.
  intros (Hm & Hs & Ho & He & Hp). split_and!; simpl.
  - exists (content (parsed_string st) ++ s). simpl. by rewrite app_nil_r.
  - eapply Forall_impl; [|exact Hs]. simpl. intros e H. cbv beta in H. lia.
  - rewrite utf16_len_app. lia.
  - eapply Forall_impl; [|exact He]. intros e H. cbv beta in H. lia.
  - lia.
Qed.

Lemma spans_push_block st m : (m <= 2)%nat -> spans_inv st -> spans_inv (push_block st m).
Proof.
  intros Hm2 Hi. unfold push_block.
  destruct (Nat.leb_spec m (prev_block_margin st)) as [Hle|Hlt]; [done|].
  destruct (spans_push_str st (repeat NEWLINE (m - prev_block_margin st)) Hi)
    as (_ & Hs & Ho & He & _).
  destruct Hi as ([pre Hm] & _ & _ & _ & _). split_and!; try done; simpl; try lia.
  exists pre. simpl. rewrite Hm, <- app_assoc, <- repeat_app. do 2 f_equal. lia.
Qed.

Lemma spans_set_margin_1 st :
  ends_with_newline (content (parsed_string st)) = true -> spans_inv st ->
  spans_inv (set_margin st 1).
Proof.
  intros Hn (Hm & Hs & Ho & He & Hp). split_and!; try done.
  - by apply ends_with_newline_margin.
  - simpl. lia.
Qed.

Lemma spans_pop_span st accept : spans_inv st -> res_good spans_inv (pop_span st accept).
Proof.
  intros Hi. unfold pop_span.
  destruct (entity_stack st) as [|[ek s] stk] eqn:Hst; [done|].
  destruct (accept ek) as [mk|]; [|done].
  unfold usize_sub. destruct (Nat.leb_spec s (utf16_offset st)); [|done]. simpl.
  destruct Hi as (Hm & Hs & Ho & He & Hp). unfold starts_ok in Hs. rewrite Hst in Hs.
  apply list.Forall_cons in Hs as [_ Hs].
  split_and!; try done; simpl.
  apply Forall_app. split; [exact He|]. constructor; [simpl; lia|constructor].
Qed.

Lemma spans_open st ek :
  spans_inv st -> spans_inv (set_stack st (mkEntity ek (utf16_offset st) :: entity_stack st)).
Proof.
  intros (Hm & Hs & Ho & He & Hp). split_and!; try done.
  constructor; [simpl; lia|exact Hs].
Qed.

Section Steps.
Variable url_parses : str -> bool.

Lemma spans_start st tag : spans_inv st -> res_good spans_inv (start url_parses st tag).
Proof.
  intros Hi. destruct tag as [| level | lang | first | | | | | url | url]; simpl.
  - exact Hi.
  - by apply spans_push_str.
  - by apply spans_open.
  - by apply spans_open.
  - destruct (entity_stack st) as [|[[mk|[n|]] s] stk]; simpl; try done;
      by apply spans_push_str.
  - by apply spans_open.
  - by apply spans_open.
  - by apply spans_open.
  - destruct (url_parses url); simpl; [by apply spans_open|done].
  - destruct (url_parses url); simpl; [by apply spans_open|done].
Qed.

Lemma spans_end st tag : spans_inv st -> res_good spans_inv (end_ st tag).
Proof.
  intros Hi. destruct tag as [| level | lang | first | | | | | url | url]; simpl.
  - by apply spans_push_block.
  - by apply spans_push_block.
  - apply res_good_bind with (P := spans_inv); [by apply spans_pop_span|].
    intros a Ha. simpl. apply spans_push_block; [unfold PARAGRAPH_MARGIN; lia|].
    destruct (ends_with_newline _) eqn:He; [by apply spans_set_margin_1|exact Ha].
  - destruct (entity_stack st) as [|[[mk|start0] s] stk] eqn:Hst; simpl; try done.
    apply spans_push_block; [unfold PARAGRAPH_MARGIN; lia|].
    destruct Hi as (Hm & Hs & Ho & He & Hp). unfold starts_ok in Hs. rewrite Hst in Hs.
    apply list.Forall_cons in Hs as [_ Hs]. split_and!; done.
  - destruct (entity_stack st) as [|[[mk|[n|]] s] stk] eqn:Hst; simpl; try done.
    + unfold u64_incr. destruct (N.ltb_spec (n + 1) (2 ^ 64)); simpl; [|done].
      apply spans_push_block; [unfold LIST_ITEM_MARGIN; lia|].
      destruct Hi as (Hm & Hs & Ho & He & Hp). unfold starts_ok in Hs. rewrite Hst in Hs.
      apply list.Forall_cons in Hs as [Hs0 Hs]. split_and!; try done.
      constructor; [exact Hs0|exact Hs].
    + apply spans_push_block; [unfold LIST_ITEM_MARGIN; lia|exact Hi].
  - by apply spans_pop_span.
  - by apply spans_pop_span.
  - by apply spans_pop_span.
  - by apply spans_pop_span.
  - by apply spans_pop_span.
Qed.

Lemma spans_next_state st ev : spans_inv st -> res_good spans_inv (next_state url_parses st ev).
Proof.
  intros Hi. destruct ev as [tag|tag|text|text|]; simpl.
  - by apply spans_start.
  - by apply spans_end.
  - by apply spans_push_str.
  - unfold code, usize_sub. simpl.
    destruct (Nat.leb_spec (utf16_offset st) (utf16_offset st + utf16_len text)); [|lia].
    simpl. pose proof (spans_push_str st text Hi) as (Hm & Hs & Ho & He & Hp).
    split_and!; try done. simpl.
    apply Forall_app. split; [exact He|]. constructor; [simpl in *; lia|constructor].
  - by apply spans_push_str.
Qed.

Lemma spans_walk es : forall st, spans_inv st -> res_good spans_inv (walk url_parses st es).
Proof.
  induction es as [|e es IH]; intros st Hi; simpl; [exact Hi|].
  destruct (event_of_cmark e) as [ev| |]; simpl; [|done|done].
  apply res_good_bind with (P := spans_inv); [by apply spans_next_state|exact IH].
Qed.

End Steps.

Lemma spans_state_new : spans_inv state_new.
Proof. split_and!; [by exists []|constructor|reflexivity|constructor|simpl; lia]. Qed.

Lemma close_trims st pre :
  content (parsed_string st) = pre ++ repeat NEWLINE (prev_block_margin st) ->
  close st = ROk (mkPS pre (entities (parsed_string st))).
Proof.
  intros Hm. unfold close, usize_sub. rewrite Hm, utf8_len_app, utf8_len_newlines.
  destruct (Nat.leb_spec (prev_block_margin st) (utf8_len pre + prev_block_margin st));
    [|lia].
  simpl. replace (utf8_len pre + prev_block_margin st - prev_block_margin st)%nat
    with (utf8_len pre) by lia.
  unfold truncate. rewrite utf8_len_app, utf8_len_newlines.
  destruct (Nat.leb_spec (utf8_len pre + prev_block_margin st) (utf8_len pre)) as [Hle|Hlt].
  - replace (prev_block_margin st) with 0%nat by lia. simpl. by rewrite app_nil_r.
  - rewrite prefix_bytes_app. reflexivity.
Qed.

(** Every span [parse] returns ends at most [PARAGRAPH_MARGIN] (2) UTF-16
    units past the end of the returned content: [close] trims at most
    two trailing newlines, the only text a span can overhang. *)
Theorem parse_spans_bound (url_parses : str -> bool) (input : str)
    (events : list CmarkEvent) (ps : ParsedString) :
  parse url_parses input events = ROk ps ->
  Forall (fun e => (offset e + length e <= utf16_len (content ps) + 2)%nat) (entities ps).
Proof.
  unfold parse. intros Hp.
  pose proof (spans_walk url_parses events state_new spans_state_new) as Hw.
  destruct (walk url_parses state_new events) as [st| |]; simpl in Hw; [| |discriminate].
  - destruct Hw as ([pre Hm] & _ & Ho & He & Hmb).
    rewrite (close_trims st pre Hm) in Hp. injection Hp as <-. simpl.
    rewrite Hm, utf16_len_app, utf16_len_newlines in Ho.
    eapply Forall_impl; [|exact He]. intros e H. cbv beta in H. lia.
  - injection Hp as <-. constructor.
Qed.

Lemma parse_spans_bound_witness :
  parse (fun _ => true) [96; 96; 96; 10; 120; 10; 96; 96; 96]
    [CStart (CCodeBlockFenced []); CText [120; 10]; CEnd (CCodeBlockFenced [])]
  = ROk (mkPS [120] [mkME (Pre (Some [])) 0 2]) /\
  Forall (fun e => (offset e + length e <= utf16_len (content (mkPS [120%Z] [mkME (Pre (Some [])) 0 2])) + 2)%nat)
    (entities (mkPS [120] [mkME (Pre (Some [])) 0 2])).
Proof.
  assert (H : parse (fun _ => true) [96; 96; 96; 10; 120; 10; 96; 96; 96]
    [CStart (CCodeBlockFenced []); CText [120; 10]; CEnd (CCodeBlockFenced [])]
    = ROk (mkPS [120] [mkME (Pre (Some [])) 0 2])) by (vm_compute; reflexivity).
  split; [exact H|].
  exact (parse_spans_bound (fun _ => true) _ _ _ H).
Defined.

(** The events of a tight list starting at [n] whose items hold the
    texts [ts]. *)
Definition ordered_list_events (n : N) (ts : list str) : list CmarkEvent :=
  CStart (CList (Some n)) ::
  concat (map (fun t => [CStart CItem; CText t; CEnd CItem]) ts) ++
  [CEnd (CList (Some n))].

(** The lines ["n. t0\n"], ["n+1. t1\n"], ... *)
Fixpoint numbered (n : N) (ts : list str) : str :=
  match ts with
  | [] => []
  | t :: ts' => (fmt_u64 n ++ [46; 32]) ++ t ++ [NEWLINE] ++ numbered (n + 1)%N ts'
  end.

Lemma walk_app url_parses es1 es2 : forall st,
  walk url_parses st (es1 ++ es2) = res_bind (walk url_parses st es1) (fun st' => walk url_parses st' es2).
Proof.
  induction es1 as [|e es1 IH]; intros st; [reflexivity|]. simpl.
  destruct (event_of_cmark e) as [ev| |]; simpl; [|done|done].
  destruct (next_state url_parses st ev) as [st'| |]; simpl; [|done|done]. apply IH.
Qed.

Lemma walk_items url_parses ts : forall n s0 stk st,
  entity_stack st = mkEntity (EList (Some n)) s0 :: stk ->
  (n + N.of_nat (Datatypes.length ts) < 2 ^ 64)%N ->
  exists st', walk url_parses st (concat (map (fun t => [CStart CItem; CText t; CEnd CItem]) ts))
                = ROk st' /\
    content (parsed_string st') = content (parsed_string st) ++ numbered n ts /\
    entities (parsed_string st') = entities (parsed_string st) /\
    entity_stack st' = mkEntity (EList (Some (n + N.of_nat (Datatypes.length ts))%N)) s0 :: stk /\
    (ts <> [] -> prev_block_margin st' = 1%nat).
Proof.
  induction ts as [|t ts IH]; intros n s0 stk st Hst Hn.
  - exists st. rewrite N.add_0_r. split_and!; try done. simpl. by rewrite app_nil_r.
  - cbn [map concat].
    set (st1 := push_str (push_str st (fmt_u64 n ++ [46; 32])) t).
    assert (Hinc : u64_incr n = ROk (n + 1)%N).
    { unfold u64_incr. cbn [Datatypes.length] in Hn.
      destruct (N.ltb_spec (n + 1) (2 ^ 64)); [done|lia]. }
    set (st2 := push_block (set_stack st1 (mkEntity (EList (Some (n + 1)%N)) s0 :: stk))
                  LIST_ITEM_MARGIN).
    assert (E : walk url_parses st
                  ([CStart CItem; CText t; CEnd CItem] ++
                   concat (map (fun t => [CStart CItem; CText t; CEnd CItem]) ts))
                = walk url_parses st2
                    (concat (map (fun t => [CStart CItem; CText t; CEnd CItem]) ts))).
    { cbn [app walk event_of_cmark tag_of_cmark res_bind next_state start].
      rewrite Hst. cbn [res_bind next_state end_].
      assert (Hst1 : entity_stack st1 = mkEntity (EList (Some n)) s0 :: stk)
        by (unfold st1; simpl; exact Hst).
      fold st1. rewrite Hst1. cbn [res_bind]. rewrite Hinc. cbn [res_bind]. reflexivity. }
    rewrite E.
    destruct (IH (n + 1)%N s0 stk st2) as (st' & Hw & Hc & He & Hs & Hm).
    { reflexivity. }
    { cbn [Datatypes.length] in Hn. lia. }
    assert (Hm2 : prev_block_margin st2 = 1%nat) by reflexivity.
    assert (Hc2 : content (parsed_string st2) =
                  content (parsed_string st) ++ (fmt_u64 n ++ [46; 32]) ++ t ++ [NEWLINE]).
    { unfold st2, push_block, st1.
      cbn [push_str set_stack prev_block_margin parsed_string content LIST_ITEM_MARGIN Nat.leb
           Nat.sub repeat].
      rewrite <- !app_assoc. reflexivity. }
    exists st'. split_and!.
    + exact Hw.
    + rewrite Hc, Hc2. cbn [numbered]. rewrite <- !app_assoc. reflexivity.
    + rewrite He. reflexivity.
    + rewrite Hs. cbn [Datatypes.length]. do 4 f_equal. lia.
    + intros _. destruct ts as [|t' ts'].
      * cbn [concat map walk] in Hw. injection Hw as <-. exact Hm2.
      * by apply Hm.
Qed.

Lemma numbered_last n ts : ts <> [] -> exists pre, numbered n ts = pre ++ [NEWLINE].
Proof.
  revert n. induction ts as [|t ts IH]; intros n Hne; [done|].
  destruct ts as [|t' ts'].
  - exists ((fmt_u64 n ++ [46; 32]) ++ t). cbn [numbered]. by rewrite app_nil_r, <- !app_assoc.
  - destruct (IH (n + 1)%N ltac:(done)) as [pre Hpre].
    exists ((fmt_u64 n ++ [46; 32]) ++ t ++ [NEWLINE] ++ pre).
    cbn [numbered] in *. rewrite Hpre. by rewrite <- !app_assoc.
Qed.

(** An ordered list starting at [n] is rendered with its items numbered
    [n], [n+1], ... in order, one per line, without any span; the two
    newlines that end the list are trimmed. *)
Theorem parse_ordered_list (url_parses : str -> bool) (input : str) (n : N) (ts : list str) :
  ts <> [] -> (n + N.of_nat (Datatypes.length ts) < 2 ^ 64)%N ->
  exists c, parse url_parses input (ordered_list_events n ts) = ROk (mkPS c []) /\
            c ++ [NEWLINE] = numbered n ts.
Proof.
  intros Hne Hn. unfold parse, ordered_list_events.
  set (items := concat (map (fun t => [CStart CItem; CText t; CEnd CItem]) ts)).
  set (st0 := set_stack state_new [mkEntity (EList (Some n)) 0]).
  assert (E0 : walk url_parses state_new (CStart (CList (Some n)) :: items ++ [CEnd (CList (Some n))])
               = walk url_parses st0 (items ++ [CEnd (CList (Some n))])) by reflexivity.
  rewrite E0, walk_app.
  destruct (walk_items url_parses ts n 0 [] st0 eq_refl Hn) as (st' & Hw & Hc & He & Hs & Hm).
  fold items in Hw. rewrite Hw. cbn [res_bind].
  assert (E1 : walk url_parses st' [CEnd (CList (Some n))] =
               ROk (push_block (set_stack st' []) PARAGRAPH_MARGIN))
    by (cbn [walk event_of_cmark tag_of_cmark res_bind next_state end_]; by rewrite Hs).
  rewrite E1. cbn [res_bind].
  destruct (numbered_last n ts Hne) as [pre Hpre].
  exists pre. split; [|done].
  replace (mkPS pre []) with
    (mkPS pre (entities (parsed_string (push_block (set_stack st' []) PARAGRAPH_MARGIN)))).
  2:{ unfold push_block. cbn [set_stack prev_block_margin]. rewrite (Hm Hne).
      cbn [push_str set_stack prev_block_margin parsed_string entities PARAGRAPH_MARGIN Nat.leb].
      rewrite He. reflexivity. }
  apply close_trims.
  unfold push_block. cbn [set_stack prev_block_margin]. rewrite (Hm Hne).
  cbn [push_str set_stack prev_block_margin parsed_string content entities PARAGRAPH_MARGIN
       Nat.leb Nat.sub repeat].
  rewrite Hc, Hpre. simpl. rewrite <- app_assoc. reflexivity.
Qed.

Lemma parse_ordered_list_witness :
  ([[97]; [98]] <> @nil str /\ (3 + N.of_nat (Datatypes.length [[97]; [98]]) < 2 ^ 64)%N) /\
  exists c, parse (fun _ => true) [51; 46; 32; 97; 10; 52; 46; 32; 98]
              (ordered_list_events 3 [[97]; [98]]) = ROk (mkPS c []) /\
            c ++ [NEWLINE] = numbered 3 [[97]; [98]].
Proof.
  assert (H1 : [[97]; [98]] <> @nil str) by discriminate.
  assert (H2 : (3 + N.of_nat (Datatypes.length [[97]; [98]]) < 2 ^ 64)%N)
    by (apply N.ltb_lt; vm_compute; reflexivity).
  split; [split; assumption|].
  exact (parse_ordered_list (fun _ => true) [51; 46; 32; 97; 10; 52; 46; 32; 98] 3
           [[97]; [98]] H1 H2).
Defined.
End MarkdownExtra.


(* ================================================================== *)
(** * More properties: the "Show Raw Contents" callback data *)
(* ================================================================== *)

Module ShowRawExtra.
Import Markdown ShowRaw.

Lemma strip_prefix_app p s : strip_prefix p (p ++ s) = Some s.
Proof. induction p as [|c p IH]; [reflexivity|]. simpl. by rewrite Z.eqb_refl. Qed.

Lemma is_digit_of n : (n < 10)%N -> is_digit (48 + Z.of_N n) = true.
Proof. intros Hn. unfold is_digit. apply andb_true_iff. split; apply Z.leb_le; lia. Qed.

Lemma dec_digits_digits f : forall n, Forall (fun c => is_digit c = true) (dec_digits f n).
Proof.
  induction f as [|f IH]; intros n; [constructor|]. cbn [dec_digits].
  destruct (N.ltb_spec n 10).
  - constructor; [by apply is_digit_of|constructor].
  - apply Forall_app. split; [apply IH|].
    constructor; [apply is_digit_of, N.mod_lt; lia|constructor].
Qed.

Lemma dec_digits_nonempty f n : dec_digits (S f) n <> [].
Proof.
  cbn [dec_digits]. destruct (n <? 10)%N; [done|].
  intros H. by apply app_eq_nil in H as [_ ?].
Qed.

Lemma in_i64_true z : - 2 ^ 63 <= z < 2 ^ 63 -> in_i64 z = true.
Proof. intros Hz. unfold in_i64. apply andb_true_iff. split; [apply Z.leb_le|apply Z.ltb_lt]; lia. Qed.

Lemma digits_pos_app a xs ys :
  digits_pos a (xs ++ ys) = digits_pos a xs ≫= fun a' => digits_pos a' ys.
Proof.
  revert a. induction xs as [|c xs IH]; intros a; [reflexivity|]. simpl.
  destruct (is_digit c), (in_i64 (a * 10)), (in_i64 (a * 10 + (c - 48))); simpl; auto.
Qed.

Lemma digits_neg_app a xs ys :
  digits_neg a (xs ++ ys) = digits_neg a xs ≫= fun a' => digits_neg a' ys.
Proof.
  revert a. induction xs as [|c xs IH]; intros a; [reflexivity|]. simpl.
  destruct (is_digit c), (in_i64 (a * 10)), (in_i64 (a * 10 - (c - 48))); simpl; auto.
Qed.

Lemma digits_pos_one a d :
  (d < 10)%N -> 0 <= a * 10 -> a * 10 + Z.of_N d < 2 ^ 63 ->
  digits_pos a [48 + Z.of_N d] = Some (a * 10 + Z.of_N d).
Proof.
  intros Hd H0 H1. simpl. rewrite is_digit_of by done.
  rewrite !in_i64_true by lia. f_equal. lia.
Qed.

Lemma digits_neg_one a d :
  (d < 10)%N -> a * 10 <= 0 -> - 2 ^ 63 <= a * 10 - Z.of_N d ->
  digits_neg a [48 + Z.of_N d] = Some (a * 10 - Z.of_N d).
Proof.
  intros Hd H0 H1. simpl. rewrite is_digit_of by done.
  rewrite !in_i64_true by lia. f_equal. lia.
Qed.

Lemma digits_pos_dec f : forall n, (n < 10 ^ N.of_nat f)%N -> Z.of_N n < 2 ^ 63 ->
  digits_pos 0 (dec_digits f n) = Some (Z.of_N n).
Proof.
  induction f as [|f IH]; intros n Hf Hn.
  - cbn [N.of_nat] in Hf. rewrite N.pow_0_r in Hf. replace n with 0%N by lia. reflexivity.
  - cbn [dec_digits]. destruct (N.ltb_spec n 10) as [Hlt|Hge].
    + rewrite (digits_pos_one 0 n) by lia. reflexivity.
    + rewrite digits_pos_app, IH.
      2:{ apply N.Div0.div_lt_upper_bound. rewrite Nat2N.inj_succ, N.pow_succ_r' in Hf. lia. }
      2:{ pose proof (N.Div0.div_le_upper_bound n 10 n ltac:(lia)). lia. }
      cbn [mbind option_bind].
      pose proof (N.div_mod n 10 ltac:(lia)) as Hdm.
      pose proof (N.mod_lt n 10 ltac:(lia)) as Hml.
      rewrite digits_pos_one by lia. f_equal. lia.
Qed.

Lemma digits_neg_dec f : forall n, (n < 10 ^ N.of_nat f)%N -> Z.of_N n <= 2 ^ 63 ->
  digits_neg 0 (dec_digits f n) = Some (- Z.of_N n).
Proof.
  induction f as [|f IH]; intros n Hf Hn.
  - cbn [N.of_nat] in Hf. rewrite N.pow_0_r in Hf. replace n with 0%N by lia. reflexivity.
  - cbn [dec_digits]. destruct (N.ltb_spec n 10) as [Hlt|Hge].
    + rewrite (digits_neg_one 0 n) by lia; try (f_equal; lia).
    + rewrite digits_neg_app, IH.
      2:{ apply N.Div0.div_lt_upper_bound. rewrite Nat2N.inj_succ, N.pow_succ_r' in Hf. lia. }
      2:{ pose proof (N.Div0.div_le_upper_bound n 10 n ltac:(lia)). lia. }
      cbn [mbind option_bind].
      pose proof (N.div_mod n 10 ltac:(lia)) as Hdm.
      pose proof (N.mod_lt n 10 ltac:(lia)) as Hml.
      rewrite digits_neg_one by lia. f_equal. lia.
Qed.

Lemma fmt_u64_pos_bound n : Z.of_N n <= 2 ^ 63 -> (n < 10 ^ N.of_nat 20)%N.
Proof. intros Hn. cbn [N.of_nat]. lia. Qed.

(** The callback data that [actually_handle_chat_message] puts on the
    "Show Raw Contents" button, [format!("/show_raw:{}", id)], is parsed
    back by [handle_show_raw_action] to the same history message id, for
    every [i64] id, the negative ones and both extremes included. *)
Theorem show_raw_round_trip (id : Z) :
  - 2 ^ 63 <= id < 2 ^ 63 -> show_raw_id (Some (show_raw_data id)) = Some id.
Proof.
  intros Hid. unfold show_raw_id, show_raw_data. cbn [mbind option_bind].
  rewrite strip_prefix_app. cbn [mbind option_bind]. unfold fmt_i64.
  destruct (Z.ltb_spec id 0) as [Hneg|Hpos].
  - pose proof (digits_neg_dec 20 (Z.to_N (- id)) ltac:(apply fmt_u64_pos_bound; lia) ltac:(lia)) as Hd.
    pose proof (dec_digits_nonempty 19 (Z.to_N (- id))) as Hne.
    unfold fmt_u64. remember (dec_digits 20 (Z.to_N (- id))) as ds eqn:Eds.
    unfold parse_i64. cbn [Z.eqb orb Pos.eqb].
    destruct ds as [|d ds']; [done|]. rewrite Hd. f_equal. lia.
  - pose proof (digits_pos_dec 20 (Z.to_N id) ltac:(apply fmt_u64_pos_bound; lia) ltac:(lia)) as Hd.
    pose proof (dec_digits_nonempty 19 (Z.to_N id)) as Hne.
    pose proof (dec_digits_digits 20 (Z.to_N id)) as Hdig.
    unfold fmt_u64. remember (dec_digits 20 (Z.to_N id)) as ds eqn:Eds.
    destruct ds as [|d ds']; [done|].
    apply list.Forall_cons in Hdig as [Hd0 _].
    unfold is_digit in Hd0. apply andb_true_iff in Hd0 as [H1 H2].
    apply Z.leb_le in H1. apply Z.leb_le in H2.
    unfold parse_i64.
    replace ((d =? 43) || (d =? 45)) with false
      by (symmetry; apply orb_false_iff; split; apply Z.eqb_neq; lia).
    rewrite Hd. f_equal. lia.
Qed.

Lemma show_raw_round_trip_witness :
  - 2 ^ 63 <= -9223372036854775808 < 2 ^ 63 /\
  show_raw_id (Some (show_raw_data (-9223372036854775808))) = Some (-9223372036854775808).
Proof.
  assert (H1 : - 2 ^ 63 <= -9223372036854775808 < 2 ^ 63) by lia.
  split; [exact H1|]. exact (show_raw_round_trip (-9223372036854775808) H1).
Defined.

End ShowRawExtra.
